(** * pyham: taxonomy, genomes and the orthology mapper

    A shallow embedding of [pyham/taxonomy.py] and [ham/genome.py], with the
    mapper layer ([HOGsMap], [MapVertical], [MapLateral]) and the
    [AbstractGene] tagging operation modelled from the specification, and the
    properties stated about them.

    Python objects are records; a reference to an object is its identity
    (an address for a tree node, an object id for a genome or a gene).  A
    method that mutates its receiver or its arguments takes their states and
    returns the states it leaves behind together with its outcome: a raised
    exception does not roll anything back, so the state returned next to
    [Raise e] is the state at the point of the [raise]. *)

From stdpp Require Import gmap strings list fin_maps.

Set Default Proof Using "Type".

(** ** Exceptions and outcomes *)

Inductive PyError : Type :=
| TypeError
| KeyError
| IndexError
| AttributeError
| EvolutionaryConceptError.

#[global] Instance PyError_eq_dec : EqDecision PyError.
Proof. solve_decision. Defined.

Inductive Result (A : Type) : Type :=
| Ok (a : A)
| Raise (e : PyError).
Arguments Ok {A} a.
Arguments Raise {A} e.

#[global] Instance Result_bind : MBind Result := λ A B k r,
  match r with
  | Ok a => k a
  | Raise e => Raise e
  end.

(** ** Tree nodes (ete3's [TreeNode], the part the taxonomy relies on)

    A node of the species tree is addressed by the child indices on the way
    from the node up to the root, innermost index first; the root is [[]].
    Inside one tree two node objects are the same object exactly when their
    addresses are equal, which is what [==] on ete3 nodes compares. *)

Definition TreeNode : Type := list nat.

(** [node.up]: the parent, or [None] at the root. *)
Definition up (n : TreeNode) : option TreeNode :=
  match n with
  | [] => None
  | _ :: p => Some p
  end.

(** [node.iter_ancestors()]: follows [up] until the root, nearest first. *)
Fixpoint iter_ancestors (n : TreeNode) : list TreeNode :=
  match n with
  | [] => []
  | _ :: p => p :: iter_ancestors p
  end.

(** [node.get_ancestors()] is the same sequence as a list. *)
Definition get_ancestors (n : TreeNode) : list TreeNode := iter_ancestors n.

(** The depth [_add_depth] attaches: the number of edges up to the root. *)
Definition depth (n : TreeNode) : nat := length n.

(** [a] is a strict ancestor of [n]: reachable from [n] by one or more [up]
    steps. *)
Inductive strict_ancestor : TreeNode → TreeNode → Prop :=
| sa_parent n p : up n = Some p → strict_ancestor p n
| sa_step n p a : up n = Some p → strict_ancestor a p → strict_ancestor a n.

(** [l] lists successive parents starting above [n]. *)
Fixpoint is_up_chain (n : TreeNode) (l : list TreeNode) : Prop :=
  match l with
  | [] => True
  | x :: r => up n = Some x ∧ is_up_chain x r
  end.

(** ** Taxonomy.get_path_up (taxonomy.py) *)

(** The body of the [for tax in ...: if tax == ancestor_node: break;
    intermediate_level.append(tax)] loop, over the ancestors still to visit. *)
Fixpoint path_up_loop (ancestors : list TreeNode) (ancestor_node : TreeNode)
  : list TreeNode :=
  match ancestors with
  | [] => []
  | tax :: rest =>
      if decide (tax = ancestor_node) then []
      else tax :: path_up_loop rest ancestor_node
  end.

Definition get_path_up (lowest_node ancestor_node : TreeNode) : list TreeNode :=
  path_up_loop (iter_ancestors lowest_node) ancestor_node.

(** ** Object model

    What a Python variable, attribute or argument can hold is a reference;
    [PyRef] keeps the identity of the object referred to. *)

Inductive PyRef : Type :=
| RefNone
| RefStr (s : string)
| RefTreeNode (n : TreeNode)
| RefGene (oid : nat)
| RefGenome (oid : nat).

#[global] Instance PyRef_eq_dec : EqDecision PyRef.
Proof. solve_decision. Defined.

(** One [taxonomy] entry of a phyloxml clade. *)
Record PhyloTaxonomy : Type := mkPhyloTaxonomy {
  scientific_name : option string;
  code : option string
}.

(** The attributes of a tree node that the taxonomy reads or writes; [None]
    in [node_name] is Python's [None], and the two features are absent until
    [add_feature] sets them. *)
Record NodeData : Type := mkNodeData {
  node_name : option string;
  phyloxml_taxonomy : list PhyloTaxonomy;
  depth_feature : option nat;
  genome_feature : option PyRef
}.

Definition set_node_name (d : NodeData) (nm : option string) : NodeData :=
  mkNodeData nm (phyloxml_taxonomy d) (depth_feature d) (genome_feature d).

Definition add_feature_depth (d : NodeData) (k : nat) : NodeData :=
  mkNodeData (node_name d) (phyloxml_taxonomy d) (Some k) (genome_feature d).

Definition add_feature_genome (d : NodeData) (g : PyRef) : NodeData :=
  mkNodeData (node_name d) (phyloxml_taxonomy d) (depth_feature d) (Some g).

(** The three genome classes of genome.py; [Genome] itself has no abstract
    method, so it can be instantiated and subclassed. *)
Inductive GenomeClass : Type :=
| BaseGenome
| AncestralGenome
| ExtantGenome.

#[global] Instance GenomeClass_eq_dec : EqDecision GenomeClass.
Proof. solve_decision. Defined.

(** A genome object.  [genes] holds references to the owned genes, [taxon] a
    reference to a tree node, [ancestral_clustering] a reference to the cached
    dict (attribute of [AncestralGenome] only, [None] until computed).  The
    NCBI [taxid] of an extant genome is not read by any method below. *)
Record Genome : Type := mkGenome {
  genome_oid : nat;
  genome_class : GenomeClass;
  genes : list nat;
  taxon : option TreeNode;
  name : option string;
  ancestral_clustering : option nat
}.

Definition set_genes (g : Genome) (l : list nat) : Genome :=
  mkGenome (genome_oid g) (genome_class g) l (taxon g) (name g)
           (ancestral_clustering g).

Definition set_taxon_field (g : Genome) (t : option TreeNode) : Genome :=
  mkGenome (genome_oid g) (genome_class g) (genes g) t (name g)
           (ancestral_clustering g).

Definition set_name (g : Genome) (nm : option string) : Genome :=
  mkGenome (genome_oid g) (genome_class g) (genes g) (taxon g) nm
           (ancestral_clustering g).

Definition set_ancestral_clustering (g : Genome) (c : option nat) : Genome :=
  mkGenome (genome_oid g) (genome_class g) (genes g) (taxon g) (name g) c.

(** The two variants of [AbstractGene]. *)
Inductive GeneClass : Type :=
| Gene
| HOG.

#[global] Instance GeneClass_eq_dec : EqDecision GeneClass.
Proof. solve_decision. Defined.

(** Modelled from the spec: the [AbstractGene] object of the abstractgene
    module, which is not among the sources (section 3 of the specification:
    identifier, taxon-range tags, parent link, children of a HOG, and the
    back-reference to the owning genome). *)
Record AbstractGene : Type := mkAbstractGene {
  gene_oid : nat;
  gene_class : GeneClass;
  gene_taxon : gset string;
  gene_parent : option nat;
  gene_children : list nat;
  gene_genome : option nat
}.

(** An argument as a method receives it: the object's state, tagged with its
    run-time type. *)
Inductive PyObj : Type :=
| ObjNone
| ObjStr (s : string)
| ObjTreeNode (n : TreeNode) (d : NodeData)
| ObjGene (g : AbstractGene)
| ObjGenome (g : Genome).

Definition ref_of (o : PyObj) : PyRef :=
  match o with
  | ObjNone => RefNone
  | ObjStr s => RefStr s
  | ObjTreeNode n _ => RefTreeNode n
  | ObjGene g => RefGene (gene_oid g)
  | ObjGenome g => RefGenome (genome_oid g)
  end.

(** ** Genome (genome.py) *)

(** Modelled from the spec: [AbstractGene.set_genome], of the absent
    abstractgene module, "sets the gene's owning-genome back-reference". *)
Definition set_genome (gene : AbstractGene) (genome : Genome) : AbstractGene :=
  mkAbstractGene (gene_oid gene) (gene_class gene) (gene_taxon gene)
                 (gene_parent gene) (gene_children gene)
                 (Some (genome_oid genome)).

(** [Genome.add_gene]: returns the receiver and the argument as the call
    leaves them. *)
Definition add_gene (self : Genome) (gene : PyObj)
  : Genome * PyObj * Result unit :=
  match gene with
  | ObjGene g =>
      let self' := set_genes self (genes self ++ [gene_oid g]) in
      (self', ObjGene (set_genome g self'), Ok ())
  | _ => (self, gene, Raise TypeError)
  end.

(** [Genome.set_taxon]: the argument is only read. *)
Definition set_taxon (self : Genome) (taxon_arg : PyObj)
  : Genome * Result unit :=
  match taxon_arg with
  | ObjTreeNode n _ =>
      if decide (taxon self ≠ None ∧ Some n ≠ taxon self)
      then (self, Raise EvolutionaryConceptError)
      else (set_taxon_field self (Some n), Ok ())
  | _ => (self, Raise TypeError)
  end.

(** [AncestralGenome.get_ancestral_clustering].  Dicts live in a heap and are
    referred to by location, so that "the same object" can be told from "an
    equal value"; [calls] records every invocation of
    [get_all_descendant_genes], a method of the absent abstractgene module
    that is taken as a parameter. *)
Section AncestralClustering.
Context {Descendants : Type}.
Variable get_all_descendant_genes : nat → Descendants.

Record Heap : Type := mkHeap {
  dicts : gmap nat (gmap nat Descendants);
  calls : list nat
}.

(** [self.ancestral_clustering[hog] = hog.get_all_descendant_genes()] *)
Definition store_descendants (l hog : nat) (h : Heap) : Heap :=
  mkHeap (alter (insert hog (get_all_descendant_genes hog)) l (dicts h))
         (calls h ++ [hog]).

Fixpoint fill_clustering (l : nat) (hogs : list nat) (h : Heap) : Heap :=
  match hogs with
  | [] => h
  | hog :: rest => fill_clustering l rest (store_descendants l hog h)
  end.

Definition get_ancestral_clustering (self : Genome) (h : Heap)
  : Genome * Heap * Result nat :=
  match genome_class self with
  | AncestralGenome =>
      match ancestral_clustering self with
      | None =>
          let l := fresh (dom (dicts h)) in
          let h0 := mkHeap (<[l := ∅]> (dicts h)) (calls h) in
          (set_ancestral_clustering self (Some l),
           fill_clustering l (genes self) h0, Ok l)
      | Some l => (self, h, Ok l)
      end
  | _ => (self, h, Raise AttributeError)
  end.
End AncestralClustering.

Arguments Heap : clear implicits.
Arguments mkHeap {Descendants} dicts calls.

(** ** The species tree (ete3's [Tree], as [Taxonomy] walks it downwards) *)

#[local] Unset Elimination Schemes.
Inductive Tree : Type :=
| Node (d : NodeData) (cs : list Tree).
#[local] Set Elimination Schemes.

Definition data (t : Tree) : NodeData := match t with Node d _ => d end.
Definition get_children (t : Tree) : list Tree := match t with Node _ cs => cs end.

(** [node.is_leaf()] *)
Definition is_leaf (t : Tree) : bool :=
  match get_children t with
  | [] => true
  | _ :: _ => false
  end.

(** [node.iter_leaves()], which is also what [for leaf in node] runs. *)
Fixpoint iter_leaves (t : Tree) : list NodeData :=
  match t with
  | Node d [] => [d]
  | Node _ cs => flat_map iter_leaves cs
  end.

Fixpoint tree_size (t : Tree) : nat :=
  match t with
  | Node _ cs => S (list_sum (map tree_size cs))
  end.

(** The loop of ete3's level-order iterator: pop the queue's head, yield it,
    push its children at the back.  Every turn yields one node, so a tree is
    exhausted after [tree_size] turns. *)
Fixpoint levelorder_loop (fuel : nat) (tovisit : list Tree) : list Tree :=
  match fuel, tovisit with
  | S fuel', node :: rest =>
      node :: levelorder_loop fuel' (rest ++ get_children node)
  | _, _ => []
  end.

(** [tree.traverse()], whose default strategy is level order. *)
Definition traverse (t : Tree) : list Tree := levelorder_loop (tree_size t) [t].

(** ** Strings as Python handles them *)

(** [str(x)] for a name that may be [None]. *)
Definition py_str (x : option string) : string :=
  match x with
  | Some s => s
  | None => "None"
  end.

(** [s[:-1]] *)
Fixpoint drop_last (s : string) : string :=
  match s with
  | EmptyString => EmptyString
  | String c EmptyString => EmptyString
  | String c r => String c (drop_last r)
  end.

(** [len(set(l))] *)
Definition len_set (l : list (option string)) : nat :=
  size (list_to_set l : gset (option string)).

(** ** Taxonomy (taxonomy.py) *)

Record Taxonomy : Type := mkTaxonomy {
  tree : Tree;
  tree_format : string;
  use_internal_name : bool;
  phyloxml_species_name_tag : option string;
  internal_nodes : gset TreeNode;
  leaves : gset TreeNode
}.

(** [Taxonomy.set_taxon_name]: the node is renamed after its leaves. *)
Definition level_name (t : Tree) : string :=
  foldl (λ acc leaf, acc +:+ py_str (node_name leaf) +:+ "/") "" (iter_leaves t).

Definition set_taxon_name (t : Tree) : Tree :=
  Node (set_node_name (data t) (Some (drop_last (level_name t)))) (get_children t).

(** The post-order pass of [_generate_internal_node_name]: children first,
    then the node itself unless it is a leaf. *)
Fixpoint rename_internal_nodes (t : Tree) : Tree :=
  match t with
  | Node d cs =>
      let t' := Node d (map rename_internal_nodes cs) in
      if is_leaf t' then t' else set_taxon_name t'
  end.

(** [Taxonomy._generate_internal_node_name].  The rest of the method only
    serialises the tree into [tree_str]; it does not change the tree. *)
Definition _generate_internal_node_name (use_internal : bool) (t : Tree) : Tree :=
  if use_internal then t else rename_internal_nodes t.

(** [node.phyloxml_clade.taxonomy[0]] *)
Definition taxonomy0 (d : NodeData) : Result PhyloTaxonomy :=
  match phyloxml_taxonomy d with
  | [] => Raise IndexError
  | t :: _ => Ok t
  end.

(** [Taxonomy._get_name_phyloxml]; an unknown tag falls through every branch
    and the method returns [None]. *)
Definition _get_name_phyloxml (tag : option string) (d : NodeData)
  : Result (option string) :=
  match tag with
  | None =>
      if decide (node_name d ≠ Some "") then Ok (node_name d)
      else
        t ← taxonomy0 d;
        if decide (scientific_name t ≠ Some "") then Ok (scientific_name t)
        else Raise KeyError
  | Some tg =>
      if decide (tg = "clade_name") then
        if decide (node_name d ≠ Some "") then Ok (node_name d)
        else Raise KeyError
      else if decide (tg = "taxonomy_scientific_name") then
        t ← taxonomy0 d;
        if decide (scientific_name t ≠ Some "") then Ok (scientific_name t)
        else Raise KeyError
      else if decide (tg = "taxonomy_code") then
        t ← taxonomy0 d;
        if decide (code t ≠ Some "") then Ok (code t)
        else Raise KeyError
      else Ok None
  end.

(** The naming pass of [_build_tree] for a phyloxml tree: leaves are always
    renamed, inner nodes only with [use_internal_name]. *)
Definition renamed_in_build (use_internal : bool) (node : Tree) : bool :=
  is_leaf node || use_internal.

(** The names that pass computes, node after node in traversal order; the
    first failing [_get_name_phyloxml] ends the construction. *)
Fixpoint build_names (tag : option string) (use_internal : bool)
  (nodes : list Tree) : Result unit :=
  match nodes with
  | [] => Ok ()
  | node :: rest =>
      if renamed_in_build use_internal node then
        _ ← _get_name_phyloxml tag (data node);
        build_names tag use_internal rest
      else build_names tag use_internal rest
  end.

(** The tree once every visited node has received its name.  A node's new
    name depends on that node alone, so the assignments can be replayed
    top-down after [build_names] has succeeded. *)
Fixpoint assign_names (tag : option string) (use_internal : bool) (t : Tree)
  : Tree :=
  match t with
  | Node d cs =>
      let d' :=
        if renamed_in_build use_internal t then
          match _get_name_phyloxml tag d with
          | Ok nm => set_node_name d nm
          | Raise _ => d
          end
        else d in
      Node d' (map (assign_names tag use_internal) cs)
  end.

(** [Taxonomy._build_tree].  [parsed] is the tree the parser (ete3's for
    newick, Phyloxml's for phyloxml) makes of [tree_file]; with any other
    format the method falls off its end and returns [None]. *)
Definition _build_tree (parsed : Tree) (fmt : string) (use_internal : bool)
  (tag : option string) : Result (option Tree) :=
  if decide (fmt = "newick_string") then Ok (Some parsed)
  else if decide (fmt = "newick") then Ok (Some parsed)
  else if decide (fmt = "phyloxml") then
    _ ← build_names tag use_internal (traverse parsed);
    Ok (Some (assign_names tag use_internal parsed))
  else Ok None.

(** [nn != None] guards the append in the phyloxml branches. *)
Definition append_name (names : list (option string)) (nn : option string)
  : list (option string) :=
  match nn with
  | Some _ => names ++ [nn]
  | None => names
  end.

(** The traversal loop of [_check_consistency_names]. *)
Fixpoint collect_names (fmt : string) (tag : option string) (nodes : list Tree)
  (leaf_names int_names : list (option string))
  : Result (list (option string) * list (option string)) :=
  match nodes with
  | [] => Ok (leaf_names, int_names)
  | node :: rest =>
      if is_leaf node then
        if decide (fmt = "phyloxml") then
          nn ← _get_name_phyloxml tag (data node);
          collect_names fmt tag rest (append_name leaf_names nn) int_names
        else
          collect_names fmt tag rest (leaf_names ++ [node_name (data node)])
                        int_names
      else
        if decide (fmt = "phyloxml") then
          nn ← _get_name_phyloxml tag (data node);
          collect_names fmt tag rest leaf_names (append_name int_names nn)
        else
          collect_names fmt tag rest leaf_names
                        (int_names ++ [node_name (data node)])
  end.

(** The two tests that close [_check_consistency_names]; the second compares
    [len(set(int_names))] with itself. *)
Definition check_unique (leaf_names int_names : list (option string))
  : Result unit :=
  if decide (length leaf_names ≠ len_set leaf_names) then Raise KeyError
  else if decide (len_set int_names ≠ len_set int_names) then Raise KeyError
  else Ok ().

Definition _check_consistency_names (fmt : string) (tag : option string)
  (t : Tree) : Result unit :=
  '(leaf_names, int_names) ← collect_names fmt tag (traverse t) [] [];
  check_unique leaf_names int_names.

(** [Taxonomy._add_depth] *)
Fixpoint _add_depth (node : Tree) (depth : nat) : Tree :=
  match node with
  | Node d cs =>
      Node (add_feature_depth d depth) (map (λ n, _add_depth n (S depth)) cs)
  end.

(** [Taxonomy.__init__].  When [_build_tree] has returned [None], the next
    step dereferences it ([tree.traverse] or [self.tree.write]) and raises
    an [AttributeError]. *)
Definition Taxonomy_init (tree_file : Tree) (fmt : string)
  (use_internal : bool) (tag : option string) : Result Taxonomy :=
  built ← _build_tree tree_file fmt use_internal tag;
  match built with
  | None => Raise AttributeError
  | Some t =>
      let t1 := _generate_internal_node_name use_internal t in
      _ ← _check_consistency_names fmt tag t1;
      Ok (mkTaxonomy (_add_depth t1 0) fmt use_internal tag ∅ ∅)
  end.

Definition add_leaf (self : Taxonomy) (n : TreeNode) : Taxonomy :=
  mkTaxonomy (tree self) (tree_format self) (use_internal_name self)
             (phyloxml_species_name_tag self) (internal_nodes self)
             (leaves self ∪ {[n]}).

Definition add_internal_node (self : Taxonomy) (n : TreeNode) : Taxonomy :=
  mkTaxonomy (tree self) (tree_format self) (use_internal_name self)
             (phyloxml_species_name_tag self) (internal_nodes self ∪ {[n]})
             (leaves self).

(** [Taxonomy.add_genome_to_node]: returns the taxonomy, the node and the
    genome as the call leaves them.  An argument without the attribute that
    is called on it raises an [AttributeError]. *)
Definition add_genome_to_node (self : Taxonomy) (node genome : PyObj)
  : Taxonomy * PyObj * PyObj * Result unit :=
  match node with
  | ObjTreeNode n d =>
      let node1 := ObjTreeNode n (add_feature_genome d (ref_of genome)) in
      match genome with
      | ObjGenome g =>
          match set_taxon g node1 with
          | (g1, Raise e) => (self, node1, ObjGenome g1, Raise e)
          | (g1, Ok _) =>
              match genome_class g1 with
              | ExtantGenome =>
                  (add_leaf self n, node1, ObjGenome g1, Ok ())
              | AncestralGenome =>
                  (add_internal_node self n, node1,
                   ObjGenome (set_name g1 (node_name d)), Ok ())
              | BaseGenome => (self, node1, ObjGenome g1, Raise TypeError)
              end
          end
      | _ => (self, node1, genome, Raise AttributeError)
      end
  | _ => (self, node, genome, Raise AttributeError)
  end.

(** ** AbstractGene.set_taxon_range *)

Definition add_taxon_tag (self : AbstractGene) (tag : string) : AbstractGene :=
  mkAbstractGene (gene_oid self) (gene_class self) (gene_taxon self ∪ {[tag]})
                 (gene_parent self) (gene_children self) (gene_genome self).

(** Modelled from the spec: [set_taxon_range] of the absent abstractgene
    module.  Section 4.1: the tags accumulate into a set and a tag already
    present is a no-op; sections 3 and 7: re-tagging a single-valued
    attribute with a different value is a conceptual violation.  The tests
    say which variant is which: a [Gene] keeps a single tag
    (test_cannot_add_multiple_taxon_ranges), a [HOG] collects several
    (test_several_taxon_ranges_possible). *)
Definition set_taxon_range (self : AbstractGene) (tag : string)
  : AbstractGene * Result unit :=
  if decide (tag ∈ gene_taxon self) then (self, Ok ())
  else
    match gene_class self with
    | HOG => (add_taxon_tag self tag, Ok ())
    | Gene =>
        if decide (gene_taxon self = ∅) then (add_taxon_tag self tag, Ok ())
        else (self, Raise EvolutionaryConceptError)
    end.

(** ** HOGsMap *)

Module HOGsMap.

(** Modelled from the spec: the derived structures of a [HOGsMap]
    (section 3); the mapper module is not among the sources.  Genes and HOGs
    are referred to by object id. *)
Record t : Type := mk {
  ancestor : Genome;
  descendant : Genome;
  upMap : gmap nat (option nat);
  GAIN : gset nat;
  LOSS : gset nat;
  SINGLE : gmap nat nat;
  DUPLICATE : gmap nat (gset nat)
}.

(** Modelled from the spec: the three structures that classify the
    ancestor's HOGs (section 3), while they are being filled. *)
Record EventClusters : Type := mkEventClusters {
  ec_LOSS : gset nat;
  ec_SINGLE : gmap nat nat;
  ec_DUPLICATE : gmap nat (gset nat)
}.

(** A dict filled key after key with [f key]. *)
Definition dict_of_keys {V : Type} (f : nat → V) (keys : list nat) : gmap nat V :=
  foldr (λ k m, <[k := f k]> m) ∅ keys.

(** Modelled from the spec: validation step 1 and assignment step 2 of
    section 4.3.  [genomes] lists the elements of the input set: anything
    but two genomes, a genome without taxonomy node, or two nodes neither of
    which is a strict ancestor of the other is a type error.  The spec names
    no failure for an older genome that is not an [AncestralGenome], so none
    is modelled. *)
Definition set_ancestor_and_descendant (genomes : list Genome)
  : Result (Genome * Genome) :=
  match genomes with
  | [g1; g2] =>
      match taxon g1, taxon g2 with
      | Some t1, Some t2 =>
          if decide (t1 ∈ get_ancestors t2) then Ok (g1, g2)
          else if decide (t2 ∈ get_ancestors t1) then Ok (g2, g1)
          else Raise TypeError
      | _, _ => Raise TypeError
      end
  | _ => Raise TypeError
  end.

Section Mapping.
(** The enclosing HOG of a gene at one taxonomy level, or its absence: a
    query on the [AbstractGene] hierarchy, which the spec leaves to the
    hierarchy and which is taken as a parameter. *)
Variable enclosing_hog : TreeNode → nat → option nat.

(** Modelled from the spec: the upward walk of algorithm step 2; an absent
    HOG propagates as "no further ancestor". *)
Fixpoint walk_up (levels : list TreeNode) (current : option nat) : option nat :=
  match levels with
  | [] => current
  | tax :: rest => walk_up rest (current ≫= enclosing_hog tax)
  end.

(** Modelled from the spec: the levels walked are the intermediate ones of
    [get_path_up] (step 1) and then the ancestor's own. *)
Definition levels_up (anc desc : Genome) : list TreeNode :=
  match taxon desc, taxon anc with
  | Some td, Some ta => get_path_up td ta ++ [ta]
  | _, _ => []
  end.

(** Modelled from the spec: the entry recorded for a gene, "the resulting
    top-of-chain HOG (or None if the walk terminates without a HOG at the
    ancestor level)"; the HOGs at the ancestor level are the ancestor
    genome's genes. *)
Definition top_of_chain (anc desc : Genome) (gene : nat) : option nat :=
  match walk_up (levels_up anc desc) (Some gene) with
  | Some h => if decide (h ∈ genes anc) then Some h else None
  | None => None
  end.

(** Modelled from the spec: [upMap], one entry per gene of the descendant
    (section 3). *)
Definition build_upMap (anc desc : Genome) : gmap nat (option nat) :=
  dict_of_keys (top_of_chain anc desc) (genes desc).

(** Modelled from the spec: step 3, the genes whose entry is [None]. *)
Definition build_GAIN (up : gmap nat (option nat)) : gset nat :=
  dom (filter (λ kv, kv.2 = None) up).

(** Modelled from the spec: step 4, the descendant genes mapping to [h]. *)
Definition genes_mapping_to (up : gmap nat (option nat)) (h : nat) : gset nat :=
  dom (filter (λ kv, kv.2 = Some h) up).

(** Modelled from the spec: step 5, one ancestor HOG classified by the
    cardinality of its gene set. *)
Definition classify (up : gmap nat (option nat)) (h : nat) (ec : EventClusters)
  : EventClusters :=
  match elements (genes_mapping_to up h) with
  | [] => mkEventClusters (ec_LOSS ec ∪ {[h]}) (ec_SINGLE ec) (ec_DUPLICATE ec)
  | [g] => mkEventClusters (ec_LOSS ec) (<[h := g]> (ec_SINGLE ec)) (ec_DUPLICATE ec)
  | _ :: _ :: _ =>
      mkEventClusters (ec_LOSS ec) (ec_SINGLE ec)
                      (<[h := genes_mapping_to up h]> (ec_DUPLICATE ec))
  end.

(** Modelled from the spec: step 5 over all the HOGs of the ancestor; a HOG
    listed twice is classified the same way twice, so the order of the fold
    does not show in the result. *)
Definition buildEventClusters (anc : Genome) (up : gmap nat (option nat))
  : EventClusters :=
  foldr (classify up) (mkEventClusters ∅ ∅ ∅) (genes anc).

(** Modelled from the spec: the map of an ancestor and a descendant, the
    algorithm of section 4.3. *)
Definition build (anc desc : Genome) : t :=
  let up := build_upMap anc desc in
  let ec := buildEventClusters anc up in
  mk anc desc up (build_GAIN up) (ec_LOSS ec) (ec_SINGLE ec) (ec_DUPLICATE ec).

(** Modelled from the spec: construction of a [HOGsMap], validation first
    (section 4.3). *)
Definition init (genomes : list Genome) : Result t :=
  '(anc, desc) ← set_ancestor_and_descendant genomes;
  Ok (build anc desc).
End Mapping.

End HOGsMap.

(** What [add_map] can be handed: a [HOGsMap] or any other object. *)
Inductive MapArg : Type :=
| ArgHOGsMap (m : HOGsMap.t)
| ArgOther (o : PyObj).

(** ** MapVertical *)

Module MapVertical.
(** Modelled from the spec: a vertical map (section 4.4), bound to an
    analysis context and wrapping at most one [HOGsMap]. *)
Record t : Type := mk {
  HAM : option nat;
  map : option HOGsMap.t
}.

(** Modelled from the spec: a new vertical map holds no map yet; [ham] is
    the analysis context, [None] when there is none. *)
Definition init (ham : option nat) : t := mk ham None.

(** Modelled from the spec: [add_map] "fails with a type error if map is
    not a HOGsMap, or if a map has already been added, or if this is not
    constructed bound to a specific analysis context". *)
Definition add_map (self : t) (arg : MapArg) : t * Result unit :=
  match arg with
  | ArgOther _ => (self, Raise TypeError)
  | ArgHOGsMap m =>
      match HAM self, map self with
      | Some _, None => (mk (HAM self) (Some m), Ok ())
      | _, _ => (self, Raise TypeError)
      end
  end.
End MapVertical.

(** ** MapLateral *)

Module MapLateral.
(** Modelled from the spec: a lateral map (section 4.5): the maps added so
    far, the ancestor the first one recorded (genomes are compared by
    identity), and the descendants in insertion order. *)
Record t : Type := mk {
  HAM : option nat;
  ancestor : option Genome;
  descendants : list Genome;
  maps : list HOGsMap.t
}.

(** Modelled from the spec: a new lateral map holds no map and records no
    ancestor. *)
Definition init (ham : option nat) : t := mk ham None [] [].

(** Modelled from the spec: [add_map] "fails with a type error if map is
    not a HOGsMap, or if its ancestor differs from the ancestor already
    recorded by a prior map in this aggregate". *)
Definition add_map (self : t) (arg : MapArg) : t * Result unit :=
  match arg with
  | ArgOther _ => (self, Raise TypeError)
  | ArgHOGsMap m =>
      match ancestor self with
      | Some a =>
          if decide (genome_oid (HOGsMap.ancestor m) = genome_oid a) then
            (mk (HAM self) (Some a)
                (descendants self ++ [HOGsMap.descendant m])
                (maps self ++ [m]), Ok ())
          else (self, Raise TypeError)
      | None =>
          (mk (HAM self) (Some (HOGsMap.ancestor m))
              (descendants self ++ [HOGsMap.descendant m])
              (maps self ++ [m]), Ok ())
      end
  end.

(** Adding maps one after the other, stopping at the first error. *)
Fixpoint add_maps (self : t) (ms : list HOGsMap.t) : t * Result unit :=
  match ms with
  | [] => (self, Ok ())
  | m :: rest =>
      match add_map self (ArgHOGsMap m) with
      | (self', Ok _) => add_maps self' rest
      | (self', Raise e) => (self', Raise e)
      end
  end.
End MapLateral.

(** ** What the claims about [get_path_up] say *)

(** [p] is the list of the nodes strictly between [n] and its ancestor [a],
    most recent first: it holds exactly those nodes, it climbs parent by
    parent from just above [n] to just below [a], a later entry is always an
    ancestor of an earlier one, and neither end point is listed. *)
Definition is_path_between (n a : TreeNode) (p : list TreeNode) : Prop :=
  (∀ x, x ∈ p ↔ strict_ancestor x n ∧ strict_ancestor a x)
  ∧ is_up_chain n (p ++ [a])
  ∧ (∀ i j x y, i < j → p !! i = Some x → p !! j = Some y → strict_ancestor y x)
  ∧ (n ∉ p) ∧ (a ∉ p).

(** [p] is the list of all the ancestors of [n], most recent first and
    ending with the root of the tree (when [n] is not itself the root). *)
Definition is_path_to_root (n : TreeNode) (p : list TreeNode) : Prop :=
  (∀ x, x ∈ p ↔ strict_ancestor x n)
  ∧ is_up_chain n p
  ∧ (∀ i j x y, i < j → p !! i = Some x → p !! j = Some y → strict_ancestor y x)
  ∧ (is_Some (up n) → ∃ r, last p = Some r ∧ up r = None).

(** ** Example objects *)

(** The taxonomy of the examples: a root with two leaves. *)
Definition example_taxonomy : Taxonomy :=
  mkTaxonomy
    (Node (mkNodeData (Some "HUMAN/MOUSE") [] (Some 0) None)
       [Node (mkNodeData (Some "HUMAN") [] (Some 1) None) [];
        Node (mkNodeData (Some "MOUSE") [] (Some 1) None) []])
    "newick_string" false None ∅ ∅.

(** ** What the claim about the ancestral clustering says *)

(** The dict a first call builds: one entry per owned gene, in order. *)
Definition clustering_of {Descendants : Type} (f : nat → Descendants)
  (d0 : gmap nat Descendants) (hogs : list nat) : gmap nat Descendants :=
  foldl (λ d hog, <[hog := f hog]> d) d0 hogs.

(** After a first call on [self] in heap [h], which returned location [l]
    and left [self1] and [h1]: [l] is a new dict, its keys are the owned
    genes, each mapped to its descendant genes; nothing else in the heap
    moved; the descendant genes were asked once per owned gene; and the
    genome now refers to [l]. *)
Definition first_call_computes {Descendants : Type} (f : nat → Descendants)
  (self : Genome) (h : Heap Descendants) (self1 : Genome)
  (h1 : Heap Descendants) (l : nat) : Prop :=
  dicts h !! l = None
  ∧ (∃ d, dicts h1 !! l = Some d
          ∧ dom d = list_to_set (genes self)
          ∧ ∀ hog, hog ∈ genes self → d !! hog = Some (f hog))
  ∧ (∀ l', l' ≠ l → dicts h1 !! l' = dicts h !! l')
  ∧ calls h1 = calls h ++ genes self
  ∧ self1 = set_ancestral_clustering self (Some l).

(** ** What the claims about the mapper and the tags say *)

(** The reading of the tagging rule that makes no difference between the
    variants: on any [AbstractGene], a tag other than one already present is
    rejected with a conceptual violation. *)
Definition retag_rejected_on_every_variant : Prop :=
  ∀ (g : AbstractGene) (present tag : string),
    present ∈ gene_taxon g → tag ≠ present →
    (set_taxon_range g tag).2 = Raise EvolutionaryConceptError.

(** A HOG that is already tagged with one lineage. *)
Definition example_hog : AbstractGene :=
  mkAbstractGene 3 HOG {["Primates"]} None [31; 32] None.

(** A gene that is already tagged with one lineage. *)
Definition example_gene : AbstractGene :=
  mkAbstractGene 31 Gene {["test"]} (Some 3) [] None.

(** The genomes handed to [HOGsMap] are two, each attached to a taxonomy
    node, and one node is a strict ancestor of the other. *)
Definition on_same_lineage (genomes : list Genome) : Prop :=
  ∃ g1 g2 t1 t2, genomes = [g1; g2]
    ∧ taxon g1 = Some t1 ∧ taxon g2 = Some t2
    ∧ (strict_ancestor t1 t2 ∨ strict_ancestor t2 t1).

(** Exactly one of three propositions holds. *)
Definition exactly_one (A B C : Prop) : Prop :=
  (A ∨ B ∨ C) ∧ ¬ (A ∧ B) ∧ ¬ (A ∧ C) ∧ ¬ (B ∧ C).

(** Every HOG of the ancestor is lost, or kept once, or duplicated, and
    nothing but the ancestor's HOGs is classified. *)
Definition ancestor_hogs_partitioned (m : HOGsMap.t) : Prop :=
  (∀ h, h ∈ genes (HOGsMap.ancestor m) →
     exactly_one (h ∈ HOGsMap.LOSS m)
                 (h ∈ dom (HOGsMap.SINGLE m))
                 (h ∈ dom (HOGsMap.DUPLICATE m)))
  ∧ HOGsMap.LOSS m ∪ dom (HOGsMap.SINGLE m) ∪ dom (HOGsMap.DUPLICATE m)
    = list_to_set (genes (HOGsMap.ancestor m)).

(** Every gene of the descendant is gained, or the single ortholog of some
    HOG, or one of the duplicates of some HOG, and nothing but the
    descendant's genes is classified. *)
Definition descendant_genes_partitioned (m : HOGsMap.t) : Prop :=
  (∀ g, g ∈ genes (HOGsMap.descendant m) →
     exactly_one (g ∈ HOGsMap.GAIN m)
                 (∃ h, HOGsMap.SINGLE m !! h = Some g)
                 (∃ h s, HOGsMap.DUPLICATE m !! h = Some s ∧ g ∈ s))
  ∧ (∀ g, g ∈ HOGsMap.GAIN m
          ∨ (∃ h, HOGsMap.SINGLE m !! h = Some g)
          ∨ (∃ h s, HOGsMap.DUPLICATE m !! h = Some s ∧ g ∈ s) →
          g ∈ genes (HOGsMap.descendant m)).

(** The genomes of the examples: HUMAN on node [[0; 0]], its ancestors
    Euarchontoglires on [[0]] and Vertebrates on the root, and MOUSE on the
    sibling node [[1; 0]]. *)
Definition human : Genome :=
  mkGenome 1 ExtantGenome [1; 2; 3] (Some [0; 0]) (Some "HUMAN") None.

Definition mouse : Genome :=
  mkGenome 2 ExtantGenome [31; 32; 33; 34] (Some [1; 0]) (Some "MOUSE") None.

Definition euarchontoglires : Genome :=
  mkGenome 3 AncestralGenome [11; 12; 13; 14] (Some [0])
           (Some "Euarchontoglires") None.

Definition vertebrates : Genome :=
  mkGenome 4 AncestralGenome [101; 103] (Some []) (Some "Vertebrates") None.

(** The gene hierarchy of the examples, level by level: the human genes 1, 2
    and 3 sit in the Euarchontoglires HOGs 11, 12 and 13; of these 11 and 13
    sit in the Vertebrates HOGs 101 and 103, and 12 has no HOG above it. *)
Definition example_enclosing_hog (tax : TreeNode) (gene : nat) : option nat :=
  match tax, gene with
  | [0], 1 => Some 11
  | [0], 2 => Some 12
  | [0], 3 => Some 13
  | [], 11 => Some 101
  | [], 13 => Some 103
  | _, _ => None
  end.

(** ** What the claim about the construction of a taxonomy says *)

(** The names of the leaves of the species tree, in [iter_leaves] order. *)
Definition leaf_names (t : Tree) : list (option string) :=
  node_name <$> iter_leaves t.

(** Two distinct leaves bear the same name. *)
Definition two_leaves_share_name (t : Tree) : Prop :=
  ∃ i j nm, i ≠ j ∧ leaf_names t !! i = Some nm ∧ leaf_names t !! j = Some nm.

(** The two newick formats of [_build_tree]. *)
Definition is_newick (fmt : string) : Prop :=
  fmt = "newick_string" ∨ fmt = "newick".

(** The reading that ties a [KeyError] to duplicate leaf names whatever the
    format and the options. *)
Definition KeyError_iff_duplicate_leaves : Prop :=
  ∀ (t : Tree) (fmt : string) (use_internal : bool) (tag : option string),
    Taxonomy_init t fmt use_internal tag = Raise KeyError
    ↔ two_leaves_share_name t.

(** A phyloxml tree made of one clade with neither a name nor a scientific
    name. *)
Definition nameless_clade : Tree :=
  Node (mkNodeData (Some "") [mkPhyloTaxonomy (Some "") None] None None) [].

(** A newick tree whose two inner nodes are both named "anc". *)
Definition twice_anc : Tree :=
  Node (mkNodeData (Some "anc") [] None None)
    [Node (mkNodeData (Some "anc") [] None None)
       [Node (mkNodeData (Some "HUMAN") [] None None) [];
        Node (mkNodeData (Some "MOUSE") [] None None) []];
     Node (mkNodeData (Some "XENTR") [] None None) []].

(** What one visited node contributes to [leaf_names] outside phyloxml. *)
Definition leaf_name_of (node : Tree) : option (option string) :=
  if is_leaf node then Some (node_name (data node)) else None.

(** What one visited node contributes to [int_names] outside phyloxml. *)
Definition int_name_of (node : Tree) : option (option string) :=
  if is_leaf node then None else Some (node_name (data node)).

Definition forest_size (q : list Tree) : nat := list_sum (map tree_size q).

(** ** The rest of genome.py *)

(** [AncestralGenome.__init__] and [ExtantGenome.__init__], each after
    [Genome.__init__]; [oid] is the identity of the new object.  The NCBI
    taxid an extant genome also stores is read by no method. *)
Definition AncestralGenome_init (oid : nat) : Genome :=
  mkGenome oid AncestralGenome [] None None None.

Definition ExtantGenome_init (oid : nat) (name_arg : string) : Genome :=
  mkGenome oid ExtantGenome [] None (Some name_arg) None.

(** [str(genome)]: [Genome.__str__] returns [self.name], and Python raises
    a [TypeError] when [__str__] returns something that is not a string. *)
Definition Genome_str (self : Genome) : Result string :=
  match name self with
  | Some s => Ok s
  | None => Raise TypeError
  end.

(** [AncestralGenome.get_name] *)
Definition get_name (self : Genome) : option string := name self.

(** [AncestralGenome.get_number_genes] *)
Definition AncestralGenome_get_number_genes (self : Genome) : nat :=
  length (genes self).

(** The loop of [ExtantGenome.get_number_genes]: [nbr] goes up for every
    listed gene whose [parent] is not [None].  [store] gives the state of
    the gene object behind each reference. *)
Fixpoint count_with_parent (store : nat → AbstractGene) (gs : list nat)
  (nbr : nat) : nat :=
  match gs with
  | [] => nbr
  | g :: rest =>
      count_with_parent store rest
        (match gene_parent (store g) with
         | Some _ => S nbr
         | None => nbr
         end)
  end.

(** [ExtantGenome.get_number_genes(singleton)] *)
Definition ExtantGenome_get_number_genes (store : nat → AbstractGene)
  (self : Genome) (singleton : bool) : nat :=
  if singleton then length (genes self)
  else count_with_parent store (genes self) 0.

(** ** Sequences of calls *)

(** [set_taxon] called with each argument in turn, by a caller that catches
    what is raised and carries on. *)
Fixpoint set_taxon_calls (self : Genome) (args : list PyObj) : Genome :=
  match args with
  | [] => self
  | arg :: rest => set_taxon_calls (set_taxon self arg).1 rest
  end.

(** [add_gene] called with each argument in turn, in the same way. *)
Fixpoint add_gene_calls (self : Genome) (args : list PyObj) : Genome :=
  match args with
  | [] => self
  | arg :: rest => add_gene_calls (add_gene self arg).1.1 rest
  end.

(** The first tree node among some arguments. *)
Fixpoint first_tree_node (args : list PyObj) : option TreeNode :=
  match args with
  | [] => None
  | ObjTreeNode n _ :: _ => Some n
  | _ :: rest => first_tree_node rest
  end.

(** The references to the genes among some arguments, in order. *)
Definition gene_refs (args : list PyObj) : list nat :=
  omap (λ o, match o with ObjGene g => Some (gene_oid g) | _ => None end) args.

(** ** Nodes of the species tree *)

(** Every node of a tree, the root first. *)
Fixpoint subtrees (t : Tree) : list Tree :=
  match t with
  | Node _ cs => t :: flat_map subtrees cs
  end.

(** The node reached from the root along the child indices [path]. *)
Fixpoint subtree_at (t : Tree) (path : list nat) : option Tree :=
  match path with
  | [] => Some t
  | i :: rest =>
      match get_children t !! i with
      | Some c => subtree_at c rest
      | None => None
      end
  end.

(** The node of the tree that the address [n] refers to: an address lists
    the child indices from the node up to the root. *)
Definition node_at (t : Tree) (n : TreeNode) : option Tree :=
  subtree_at t (reverse n).

(** The names of the leaves below a node, as [set_taxon_name] prints
    them. *)
Definition leaf_strings (t : Tree) : list string :=
  (py_str ∘ node_name) <$> iter_leaves t.

(** The tags [_get_name_phyloxml] has a branch for. *)
Definition recognised_tag (tag : option string) : Prop :=
  tag = None ∨ tag = Some "clade_name"
  ∨ tag = Some "taxonomy_scientific_name" ∨ tag = Some "taxonomy_code".

(** ** What [add_genome_to_node] accepts *)

(** A genome that can be attached to node [n]: it is extant or ancestral,
    and has no taxon yet or has [n] already. *)
Definition attachable (g : Genome) (n : TreeNode) : Prop :=
  (genome_class g = ExtantGenome ∨ genome_class g = AncestralGenome)
  ∧ (taxon g = None ∨ taxon g = Some n).

(** The outcome of a call, and the taxonomy it leaves. *)
Definition outcome_of {S A : Type} (res : S * Result A) : Result A := res.2.


(** ** What the generated names are *)

(** Every string of a list followed by a slash, one after the other: the
    value of [level_name] before its last character is cut. *)
Fixpoint slash_terminated (l : list string) : string :=
  match l with
  | [] => ""
  | x :: rest => x +:+ "/" +:+ slash_terminated rest
  end.

(** The genome a call of [add_genome_to_node] leaves, if it was given one. *)
Definition genome_after (res : Taxonomy * PyObj * PyObj * Result unit)
  : option Genome :=
  match res.1.2 with
  | ObjGenome g => Some g
  | _ => None
  end.

(** ** What the phyloxml naming pass needs *)

(** The name of a node can be resolved whenever [_build_tree] asks for it. *)
Definition resolvable (tag : option string) (use_internal : bool) (node : Tree)
  : Prop :=
  renamed_in_build use_internal node = true →
  ∃ nm, _get_name_phyloxml tag (data node) = Ok nm.

(** * Properties *)

(** ** Properties of the ancestor walk *)

Lemma up_Some_cons n p : up n = Some p ↔ ∃ i, n = i :: p.
Proof.
  destruct n as [|i q]; simpl; split.
  - discriminate.
  - intros [? ?]; discriminate.
  - intros [= ->]. by exists i.
  - intros [j [= -> ->]]. done.
Qed.

Lemma strict_ancestor_iter a n : strict_ancestor a n ↔ a ∈ iter_ancestors n.
Proof.
  split.
  - induction 1 as [n p Hup|n p a Hup _ IH];
      apply up_Some_cons in Hup as [i ->]; simpl.
    + apply elem_of_cons; by left.
    + apply elem_of_cons; by right.
  - induction n as [|i p IH]; simpl.
    + intros H; by apply elem_of_nil in H.
    + intros [->|H]%elem_of_cons.
      * by apply sa_parent.
      * eapply sa_step; [done|]. by apply IH.
Qed.

Lemma strict_ancestor_depth a n : strict_ancestor a n → depth a < depth n.
Proof.
  induction 1 as [n p Hup|n p a Hup _ IH];
    apply up_Some_cons in Hup as [i ->]; unfold depth in *; simpl; lia.
Qed.

Lemma strict_ancestor_irrefl n : ¬ strict_ancestor n n.
Proof. intros H%strict_ancestor_depth. lia. Qed.

Lemma strict_ancestor_trans a b c :
  strict_ancestor a b → strict_ancestor b c → strict_ancestor a c.
Proof.
  intros Hab Hbc. induction Hbc as [n p Hup|n p b Hup _ IH].
  - by eapply sa_step.
  - eapply sa_step; [done|]. by apply IH.
Qed.

Lemma iter_ancestors_chain n : is_up_chain n (iter_ancestors n).
Proof. induction n as [|i p IH]; simpl; auto. Qed.

Lemma iter_ancestors_last n : n ≠ [] → last (iter_ancestors n) = Some [].
Proof.
  induction n as [|i p IH]; [done|]. intros _. simpl.
  destruct p as [|j q]; [done|].
  change (last (iter_ancestors (j :: q)) = Some []). by apply IH.
Qed.

Lemma path_up_loop_absent l a : a ∉ l → path_up_loop l a = l.
Proof.
  induction l as [|x l IH]; simpl; [done|].
  intros [Hne Hl]%not_elem_of_cons. rewrite decide_False by done.
  by rewrite IH.
Qed.

Lemma iter_ancestors_split n l1 x l2 :
  iter_ancestors n = l1 ++ x :: l2 → iter_ancestors x = l2.
Proof.
  revert l1. induction n as [|i p IH]; intros l1; simpl.
  - by destruct l1.
  - destruct l1 as [|y l1]; simpl; intros [= ? Hrest]; subst; [done|].
    by eapply IH.
Qed.

Lemma iter_ancestors_ordered n i j x y :
  i < j → iter_ancestors n !! i = Some x → iter_ancestors n !! j = Some y →
  strict_ancestor y x.
Proof.
  intros Hij Hx Hy. apply strict_ancestor_iter.
  pose proof (take_drop_middle _ _ _ Hx) as Hsplit.
  symmetry in Hsplit. apply iter_ancestors_split in Hsplit. rewrite Hsplit.
  apply list_elem_of_lookup. exists (j - S i). rewrite lookup_drop.
  by replace (S i + (j - S i)) with j by lia.
Qed.

Lemma is_up_chain_app_inv n l1 l2 : is_up_chain n (l1 ++ l2) → is_up_chain n l1.
Proof.
  revert n. induction l1 as [|x l1 IH]; intros n; simpl; [done|].
  intros [? ?]. split; [done|]. by apply IH.
Qed.

Lemma path_up_loop_split l a :
  a ∈ l → ∃ l1 l2, l = l1 ++ a :: l2 ∧ (a ∉ l1) ∧ path_up_loop l a = l1.
Proof.
  induction l as [|x l IH]; [by intros ?%elem_of_nil|].
  intros Hin. simpl. destruct (decide (x = a)) as [->|Hne].
  - exists [], l. split_and!; [done| |done]. apply not_elem_of_nil.
  - apply elem_of_cons in Hin as [->|Hin]; [done|].
    destruct (IH Hin) as (l1 & l2 & -> & Hnotin & ->).
    exists (x :: l1), l2. split_and!; [done| |done].
    apply not_elem_of_cons. split; [congruence|done].
Qed.

(** C3: when [a] is a strict ancestor of [n], [get_path_up n a] is exactly
    the list of the nodes strictly between [n] and [a], ordered from the most
    recent to the oldest, and holds neither [n] nor [a]. *)
Theorem get_path_up_between (n a : TreeNode) :
  strict_ancestor a n → is_path_between n a (get_path_up n a).
Proof.
  intros Ha. unfold get_path_up.
  destruct (path_up_loop_split (iter_ancestors n) a) as (l1 & l2 & Hsplit & Hnotin & ->);
    [by apply strict_ancestor_iter|].
  pose proof (iter_ancestors_split _ _ _ _ Hsplit) as Hl2.
  assert (Hsub : ∀ x, x ∈ l1 → strict_ancestor x n).
  { intros x Hx. apply strict_ancestor_iter. rewrite Hsplit.
    apply elem_of_app. by left. }
  assert (Habove : ∀ x, x ∈ l1 → strict_ancestor a x).
  { intros x Hx. apply list_elem_of_split in Hx as (k1 & k2 & ->).
    rewrite <- app_assoc in Hsplit. simpl in Hsplit.
    apply iter_ancestors_split in Hsplit. apply strict_ancestor_iter.
    rewrite Hsplit. apply elem_of_app. right. apply elem_of_cons. by left. }
  split_and!.
  - intros x. split; [by auto|]. intros [Hxn Hax].
    apply strict_ancestor_iter in Hxn. rewrite Hsplit in Hxn.
    apply elem_of_app in Hxn as [Hx|Hx]; [done|].
    apply elem_of_cons in Hx as [->|Hx].
    + by apply strict_ancestor_irrefl in Hax.
    + rewrite <- Hl2 in Hx. apply strict_ancestor_iter in Hx.
      destruct (strict_ancestor_irrefl x). by eapply strict_ancestor_trans.
  - pose proof (iter_ancestors_chain n) as Hchain. rewrite Hsplit in Hchain.
    replace (l1 ++ a :: l2) with ((l1 ++ [a]) ++ l2) in Hchain
      by (by rewrite <- app_assoc).
    by eapply is_up_chain_app_inv.
  - intros i j x y Hij Hx Hy.
    apply (iter_ancestors_ordered n i j); [done| |]; rewrite Hsplit.
    + by apply lookup_app_l_Some.
    + by apply lookup_app_l_Some.
  - intros Hn. by apply Hsub, strict_ancestor_irrefl in Hn.
  - done.
Qed.

Lemma get_path_up_between_witness :
  strict_ancestor [2] [1; 0; 2]
  ∧ is_path_between [1; 0; 2] [2] (get_path_up [1; 0; 2] [2]).
Proof.
  assert (H : strict_ancestor [2] [1; 0; 2]).
  { apply sa_step with [0; 2]; [reflexivity|]. apply sa_parent. reflexivity. }
  split; [exact H|]. exact (get_path_up_between [1; 0; 2] [2] H).
Defined.

(** C10: when [a] is not an ancestor of [n], [get_path_up n a] fails in no
    way (it is a total function that yields a list) and returns every
    ancestor of [n], the root of the tree included as last entry, ordered
    from the most recent to the oldest. *)
Theorem get_path_up_not_ancestor (n a : TreeNode) :
  ¬ strict_ancestor a n →
  get_path_up n a = iter_ancestors n ∧ is_path_to_root n (get_path_up n a).
Proof.
  intros Hna. rewrite strict_ancestor_iter in Hna.
  unfold get_path_up. rewrite path_up_loop_absent by done.
  split; [done|]. split_and!.
  - intros x. by rewrite strict_ancestor_iter.
  - apply iter_ancestors_chain.
  - apply iter_ancestors_ordered.
  - intros [p Hp]. exists []. split; [|done].
    apply iter_ancestors_last. by destruct n.
Qed.

Lemma get_path_up_not_ancestor_witness :
  ¬ strict_ancestor [1; 2] [0; 2]
  ∧ get_path_up [0; 2] [1; 2] = [[2]; []]
  ∧ is_path_to_root [0; 2] (get_path_up [0; 2] [1; 2]).
Proof.
  assert (H : ¬ strict_ancestor [1; 2] [0; 2]).
  { intros Hs. apply strict_ancestor_depth in Hs. vm_compute in Hs. lia. }
  split; [exact H|]. exact (get_path_up_not_ancestor [0; 2] [1; 2] H).
Defined.

(** ** Genome.set_taxon, Genome.add_gene and Taxonomy.add_genome_to_node *)

Lemma set_taxon_field_same (self : Genome) (n : TreeNode) :
  taxon self = Some n → set_taxon_field self (Some n) = self.
Proof. destruct self; simpl; by intros ->. Qed.

(** Whenever [set_taxon] raises, the genome is exactly as it was. *)
Lemma set_taxon_raise_unchanged (self self' : Genome) (arg : PyObj) (e : PyError) :
  set_taxon self arg = (self', Raise e) → self' = self.
Proof.
  unfold set_taxon. destruct arg; try (by intros [= <- _]).
  case_decide; by intros [= <- _].
Qed.

(** Whenever [add_gene] raises, the genome and the argument are exactly as
    they were. *)
Lemma add_gene_raise_unchanged (self self' : Genome) (gene gene' : PyObj) (e : PyError) :
  add_gene self gene = (self', gene', Raise e) → self' = self ∧ gene' = gene.
Proof. unfold add_gene. destruct gene; by intros [= <- <- _]. Qed.

(** C6: [set_taxon] raises a [TypeError] when its argument is not a tree
    node, raises an [EvolutionaryConceptError] when a different taxon is
    already set, and, called with the taxon already set, raises nothing and
    leaves the genome (its stored taxon included) as it is; in both failing
    cases the genome is untouched. *)
Theorem set_taxon_contract (self : Genome) :
  (∀ arg, (∀ n d, arg ≠ ObjTreeNode n d) →
     set_taxon self arg = (self, Raise TypeError))
  ∧ (∀ n d old, taxon self = Some old → n ≠ old →
       set_taxon self (ObjTreeNode n d) = (self, Raise EvolutionaryConceptError))
  ∧ (∀ n d, taxon self = Some n →
       set_taxon self (ObjTreeNode n d) = (self, Ok ()))
  ∧ (∀ n d self1, set_taxon self (ObjTreeNode n d) = (self1, Ok ()) →
       taxon self1 = Some n ∧ set_taxon self1 (ObjTreeNode n d) = (self1, Ok ())).
Proof.
  split_and!.
  - intros arg Hnot. destruct arg; try done. by destruct (Hnot n d).
  - intros n d old Hold Hne. unfold set_taxon. rewrite Hold.
    rewrite decide_True; [done|]. split; congruence.
  - intros n d Hn. unfold set_taxon. rewrite Hn.
    rewrite decide_False by (intros [_ ?]; congruence).
    by rewrite set_taxon_field_same.
  - intros n d self1. unfold set_taxon at 1.
    case_decide; intros [= <-]. split; [done|].
    unfold set_taxon. simpl. rewrite decide_False by (intros [_ ?]; congruence).
    done.
Qed.

Lemma set_taxon_contract_witness :
  let human := mkGenome 1 ExtantGenome [10; 11] (Some [0; 0]) (Some "HUMAN") None in
  let leaf := mkNodeData (Some "HUMAN") [] (Some 2) None in
  set_taxon human (ObjStr "HUMAN") = (human, Raise TypeError)
  ∧ set_taxon human (ObjTreeNode [1; 0] leaf) = (human, Raise EvolutionaryConceptError)
  ∧ set_taxon human (ObjTreeNode [0; 0] leaf) = (human, Ok ()).
Proof.
  intros human leaf.
  destruct (set_taxon_contract human) as (Htype & Hconcept & Hsame & _).
  split_and!.
  - apply Htype. intros n d. discriminate.
  - apply (Hconcept [1; 0] leaf [0; 0]); [reflexivity|discriminate].
  - apply (Hsame [0; 0] leaf). reflexivity.
Defined.

(** C4: [add_genome_to_node] does commit a partial mutation.  The genome
    HUMAN is already attached to node [[0]]; attaching it to node [[1]]
    raises an [EvolutionaryConceptError], but the node has by then received
    the feature [genome], and keeps it. *)
Theorem add_genome_to_node_partial_mutation :
  let human := mkGenome 1 ExtantGenome [] (Some [0]) (Some "HUMAN") None in
  let mouse_node := mkNodeData (Some "MOUSE") [] (Some 1) None in
  add_genome_to_node example_taxonomy (ObjTreeNode [1] mouse_node) (ObjGenome human)
  = (example_taxonomy,
     ObjTreeNode [1] (mkNodeData (Some "MOUSE") [] (Some 1) (Some (RefGenome 1))),
     ObjGenome human,
     Raise EvolutionaryConceptError)
  ∧ genome_feature mouse_node = None.
Proof. intros human mouse_node. split; reflexivity. Qed.

(** The same method raises its own [TypeError] last, after the node and the
    genome have both been written. *)
Lemma add_genome_to_node_type_error_late (self : Taxonomy) (n : TreeNode)
  (d : NodeData) (g : Genome) :
  genome_class g = BaseGenome → taxon g = None →
  add_genome_to_node self (ObjTreeNode n d) (ObjGenome g)
  = (self, ObjTreeNode n (add_feature_genome d (RefGenome (genome_oid g))),
     ObjGenome (set_taxon_field g (Some n)), Raise TypeError).
Proof.
  intros Hcls Hnone. unfold add_genome_to_node, set_taxon. rewrite Hnone.
  rewrite decide_False by (by intros [? _]). simpl. by rewrite Hcls.
Qed.

(** ** AncestralGenome.get_ancestral_clustering *)

Section AncestralClusteringProperties.
Context {Descendants : Type}.
Variable get_all_descendant_genes : nat → Descendants.

Lemma clustering_of_lookup (hogs : list nat) (d0 : gmap nat Descendants) (k : nat) :
  clustering_of get_all_descendant_genes d0 hogs !! k
  = if decide (k ∈ hogs) then Some (get_all_descendant_genes k) else d0 !! k.
Proof.
  revert d0. induction hogs as [|hog hogs IH]; intros d0.
  - rewrite decide_False; [done|]. apply not_elem_of_nil.
  - change (clustering_of get_all_descendant_genes d0 (hog :: hogs))
      with (clustering_of get_all_descendant_genes
              (<[hog := get_all_descendant_genes hog]> d0) hogs).
    rewrite IH. destruct (decide (k ∈ hogs)) as [Hin|Hnotin].
    + rewrite decide_True; [done|]. apply elem_of_cons. by right.
    + destruct (decide (k = hog)) as [->|Hne].
      * rewrite lookup_insert_eq. rewrite decide_True; [done|].
        apply elem_of_cons. by left.
      * rewrite lookup_insert_ne by done. rewrite decide_False; [done|].
        apply not_elem_of_cons. by split.
Qed.

Lemma clustering_of_dom (hogs : list nat) :
  dom (clustering_of get_all_descendant_genes ∅ hogs) = list_to_set hogs.
Proof.
  apply set_eq. intros k. rewrite elem_of_dom, clustering_of_lookup.
  rewrite elem_of_list_to_set. case_decide.
  - split; [done|]. by eexists.
  - rewrite lookup_empty. split; [by intros [? ?]|done].
Qed.

Lemma fill_clustering_heap (l : nat) (hogs : list nat) (h : Heap Descendants)
  (d0 : gmap nat Descendants) :
  dicts h !! l = Some d0 →
  fill_clustering get_all_descendant_genes l hogs h
  = mkHeap (<[l := clustering_of get_all_descendant_genes d0 hogs]> (dicts h))
           (calls h ++ hogs).
Proof.
  revert h d0. induction hogs as [|hog hogs IH]; intros h d0 Hl; simpl.
  - rewrite insert_id by done. rewrite app_nil_r. by destruct h.
  - erewrite IH; last first.
    { simpl. rewrite lookup_alter_eq, Hl. reflexivity. }
    simpl. f_equal.
    + apply map_eq. intros k. destruct (decide (k = l)) as [->|Hne].
      * by rewrite !lookup_insert_eq.
      * rewrite !lookup_insert_ne by done. by rewrite lookup_alter_ne.
    + by rewrite <- app_assoc.
Qed.

(** C7: on an [AncestralGenome] whose clustering has not been computed yet,
    [get_ancestral_clustering] builds a new dict whose keys are exactly the
    owned genes and whose values are their [get_all_descendant_genes()], and
    stores it; from then on a call returns that same dict object and changes
    nothing, neither the genome nor the heap nor the record of the calls to
    [get_all_descendant_genes]. *)
Theorem get_ancestral_clustering_once (self : Genome) (h : Heap Descendants) :
  genome_class self = AncestralGenome →
  ancestral_clustering self = None →
  ∃ self1 h1 l,
    get_ancestral_clustering get_all_descendant_genes self h = (self1, h1, Ok l)
    ∧ first_call_computes get_all_descendant_genes self h self1 h1 l
    ∧ get_ancestral_clustering get_all_descendant_genes self1 h1 = (self1, h1, Ok l)
    ∧ ∀ self' h', genome_class self' = AncestralGenome →
        ancestral_clustering self' = Some l →
        get_ancestral_clustering get_all_descendant_genes self' h' = (self', h', Ok l).
Proof.
  intros Hcls Hnone. unfold get_ancestral_clustering at 1.
  rewrite Hcls, Hnone.
  set (l := fresh (dom (dicts h))).
  assert (Hfresh : dicts h !! l = None).
  { apply not_elem_of_dom. apply is_fresh. }
  eexists _, _, l. split; [reflexivity|].
  rewrite (fill_clustering_heap l (genes self) _ ∅)
    by (simpl; apply lookup_insert_eq).
  simpl. split_and!.
  - split_and!; simpl.
    + done.
    + exists (clustering_of get_all_descendant_genes ∅ (genes self)). split_and!.
      * by rewrite lookup_insert_eq.
      * apply clustering_of_dom.
      * intros hog Hin. rewrite clustering_of_lookup. by rewrite decide_True.
    + intros l' Hne. by rewrite !lookup_insert_ne.
    + done.
    + done.
  - unfold get_ancestral_clustering. simpl. by rewrite Hcls.
  - intros self' h' Hcls' Hsome. unfold get_ancestral_clustering.
    by rewrite Hcls', Hsome.
Qed.

End AncestralClusteringProperties.

Lemma get_ancestral_clustering_once_witness :
  let f := λ hog : nat, [hog; hog + 100] in
  let vertebrates := mkGenome 7 AncestralGenome [1; 3] (Some []) (Some "Vertebrates") None in
  let h := mkHeap (∅ : gmap nat (gmap nat (list nat))) [] in
  genome_class vertebrates = AncestralGenome
  ∧ ancestral_clustering vertebrates = None
  ∧ ∃ self1 h1 l,
      get_ancestral_clustering f vertebrates h = (self1, h1, Ok l)
      ∧ first_call_computes f vertebrates h self1 h1 l
      ∧ get_ancestral_clustering f self1 h1 = (self1, h1, Ok l)
      ∧ ∀ self' h', genome_class self' = AncestralGenome →
          ancestral_clustering self' = Some l →
          get_ancestral_clustering f self' h' = (self', h', Ok l).
Proof.
  intros f vertebrates h.
  split; [reflexivity|]. split; [reflexivity|].
  exact (get_ancestral_clustering_once f vertebrates h eq_refl eq_refl).
Defined.

(** ** AbstractGene.set_taxon_range *)

(** C5, as stated, does not hold: a HOG tagged "Primates" accepts the
    different tag "Mammalia" and then carries both, as
    test_several_taxon_ranges_possible expects. *)
Lemma set_taxon_range_hog_accepts_second_tag :
  set_taxon_range example_hog "Mammalia"
  = (add_taxon_tag example_hog "Mammalia", Ok ())
  ∧ ¬ retag_rejected_on_every_variant.
Proof.
  assert (Heval : set_taxon_range example_hog "Mammalia"
                  = (add_taxon_tag example_hog "Mammalia", Ok ())).
  { unfold set_taxon_range. rewrite decide_False; [done|].
    simpl. rewrite elem_of_singleton. discriminate. }
  split; [exact Heval|].
  intros Hall. specialize (Hall example_hog "Primates" "Mammalia").
  rewrite Heval in Hall. simpl in Hall.
  assert (Hbad : Ok () = Raise EvolutionaryConceptError);
    [|discriminate Hbad].
  apply Hall; [by apply elem_of_singleton|discriminate].
Qed.

(** C5, amended: on either variant a tag already present is a no-op; a
    [Gene] that carries a tag rejects a different one with an
    [EvolutionaryConceptError] and is left as it was; a [HOG] accepts a
    different tag and adds it to its set. *)
Theorem set_taxon_range_by_variant (g : AbstractGene) (present tag : string) :
  (tag ∈ gene_taxon g → set_taxon_range g tag = (g, Ok ()))
  ∧ (gene_class g = Gene → gene_taxon g = {[present]} → tag ≠ present →
     set_taxon_range g tag = (g, Raise EvolutionaryConceptError))
  ∧ (gene_class g = HOG → tag ∉ gene_taxon g →
     set_taxon_range g tag = (add_taxon_tag g tag, Ok ())
     ∧ gene_taxon (add_taxon_tag g tag) = gene_taxon g ∪ {[tag]}).
Proof.
  unfold set_taxon_range. split_and!.
  - intros Hin. by rewrite decide_True.
  - intros Hcls Htags Hne. rewrite Htags.
    rewrite decide_False by (rewrite elem_of_singleton; congruence).
    rewrite Hcls. rewrite decide_False; [done|].
    intros Hempty. assert (Hp : present ∈ (∅ : gset string)).
    { rewrite <- Hempty. by apply elem_of_singleton. }
    by apply not_elem_of_empty in Hp.
  - intros Hcls Hnotin. rewrite decide_False by done. by rewrite Hcls.
Qed.

Lemma set_taxon_range_by_variant_witness :
  set_taxon_range example_gene "test" = (example_gene, Ok ())
  ∧ set_taxon_range example_gene "bla"
    = (example_gene, Raise EvolutionaryConceptError)
  ∧ set_taxon_range example_hog "Mammalia"
    = (add_taxon_tag example_hog "Mammalia", Ok ()).
Proof.
  split_and!.
  - destruct (set_taxon_range_by_variant example_gene "test" "test")
      as (Hsame & _ & _).
    apply Hsame. vm_compute. reflexivity.
  - destruct (set_taxon_range_by_variant example_gene "test" "bla")
      as (_ & Hgene & _).
    apply Hgene; [reflexivity|reflexivity|discriminate].
  - destruct (set_taxon_range_by_variant example_hog "Primates" "Mammalia")
      as (_ & _ & Hhog).
    apply Hhog; [reflexivity|]. simpl. rewrite elem_of_singleton. discriminate.
Defined.

(** A [Gene] never comes to carry two tags. *)
Lemma set_taxon_range_gene_single (g g' : AbstractGene) (tag : string) (r : Result unit) :
  gene_class g = Gene → size (gene_taxon g) ≤ 1 →
  set_taxon_range g tag = (g', r) → size (gene_taxon g') ≤ 1.
Proof.
  intros Hcls Hsize. unfold set_taxon_range.
  case_decide; [by intros [= <- _]|]. rewrite Hcls.
  case_decide as Hempty; [|by intros [= <- _]].
  intros [= <- _]. simpl. rewrite Hempty, (left_id_L ∅ (∪)).
  by rewrite size_singleton.
Qed.

(** ** MapVertical.add_map and MapLateral.add_map *)

(** What [add_maps] keeps true of a lateral map: every map added so far has
    the recorded ancestor, and no ancestor is recorded before the first
    map. *)
Lemma add_maps_ancestor (self self' : MapLateral.t) (ms : list HOGsMap.t) :
  (∀ a m, MapLateral.ancestor self = Some a → m ∈ MapLateral.maps self →
          genome_oid (HOGsMap.ancestor m) = genome_oid a) →
  (MapLateral.ancestor self = None → MapLateral.maps self = []) →
  MapLateral.add_maps self ms = (self', Ok ()) →
  MapLateral.maps self' = MapLateral.maps self ++ ms
  ∧ (∀ m, m ∈ MapLateral.maps self' →
       ∃ a, MapLateral.ancestor self' = Some a
            ∧ genome_oid (HOGsMap.ancestor m) = genome_oid a).
Proof.
  revert self. induction ms as [|m ms IH]; intros self Hanc Hnone; simpl.
  - intros [= <-]. rewrite app_nil_r. split; [done|].
    intros m Hm. destruct (MapLateral.ancestor self) as [a|] eqn:Ha.
    + exists a. split; [done|]. by eapply Hanc.
    + rewrite Hnone in Hm by done. by apply elem_of_nil in Hm.
  - unfold MapLateral.add_map.
    destruct (MapLateral.ancestor self) as [a|] eqn:Ha.
    + case_decide as Heq; [|discriminate]. intros Hrest.
      apply IH in Hrest as [Hmaps Hall]; simpl.
      * simpl in Hmaps. rewrite <- app_assoc in Hmaps. by split.
      * intros a' m' [= <-] [Hm'|Hm']%elem_of_app; [by eapply Hanc|].
        apply list_elem_of_singleton in Hm'. by subst.
      * discriminate.
    + intros Hrest. apply IH in Hrest as [Hmaps Hall]; simpl.
      * simpl in Hmaps. rewrite <- app_assoc in Hmaps. by split.
      * intros a' m' [= <-]. rewrite Hnone by done. simpl.
        intros Hm'. apply list_elem_of_singleton in Hm'. by subst.
      * discriminate.
Qed.

(** C8: once a vertical map holds a map, adding anything more raises a
    [TypeError]; and a lateral map to which maps have been added rejects
    with a [TypeError] any map whose ancestor is not the ancestor of a map
    added before.  Both leave the receiver as it was. *)
Theorem add_map_rejects :
  (∀ self self' m arg,
     MapVertical.add_map self (ArgHOGsMap m) = (self', Ok ()) →
     MapVertical.add_map self' arg = (self', Raise TypeError))
  ∧ (∀ ham ms self m1 m2,
       MapLateral.add_maps (MapLateral.init ham) ms = (self, Ok ()) →
       m1 ∈ ms →
       genome_oid (HOGsMap.ancestor m2) ≠ genome_oid (HOGsMap.ancestor m1) →
       MapLateral.add_map self (ArgHOGsMap m2) = (self, Raise TypeError)).
Proof.
  split.
  - intros self self' m arg. unfold MapVertical.add_map at 1.
    destruct (MapVertical.HAM self) as [ham|]; [|discriminate].
    destruct (MapVertical.map self); [discriminate|].
    intros [= <-]. by destruct arg.
  - intros ham ms self m1 m2 Hadd Hin Hne.
    apply add_maps_ancestor in Hadd as [Hmaps Hall]; [|done|done].
    simpl in Hmaps. rewrite <- Hmaps in Hin.
    destruct (Hall m1 Hin) as (a & Ha & Heq).
    unfold MapLateral.add_map. rewrite Ha.
    rewrite decide_False; [done|]. congruence.
Qed.

Lemma add_map_rejects_witness :
  let m1 := HOGsMap.build example_enclosing_hog euarchontoglires human in
  let m2 := HOGsMap.build example_enclosing_hog vertebrates human in
  let vertical := MapVertical.mk (Some 0) (Some m1) in
  let lateral := MapLateral.mk (Some 0) (Some euarchontoglires) [human] [m1] in
  MapVertical.add_map (MapVertical.init (Some 0)) (ArgHOGsMap m1) = (vertical, Ok ())
  ∧ MapVertical.add_map vertical (ArgHOGsMap m2) = (vertical, Raise TypeError)
  ∧ MapLateral.add_maps (MapLateral.init (Some 0)) [m1] = (lateral, Ok ())
  ∧ MapLateral.add_map lateral (ArgHOGsMap m2) = (lateral, Raise TypeError).
Proof.
  intros m1 m2 vertical lateral.
  destruct add_map_rejects as [Hvertical Hlateral].
  split; [reflexivity|]. split.
  - apply (Hvertical (MapVertical.init (Some 0)) vertical m1). reflexivity.
  - split; [reflexivity|].
    apply (Hlateral (Some 0) [m1] lateral m1 m2); [reflexivity| |].
    + apply list_elem_of_here.
    + simpl. discriminate.
Defined.

(** ** HOGsMap *)

Lemma set_ancestor_and_descendant_Ok (genomes : list Genome) (anc desc : Genome) :
  HOGsMap.set_ancestor_and_descendant genomes = Ok (anc, desc) →
  ∃ ta td, taxon anc = Some ta ∧ taxon desc = Some td
    ∧ strict_ancestor ta td
    ∧ (genomes = [anc; desc] ∨ genomes = [desc; anc]).
Proof.
  unfold HOGsMap.set_ancestor_and_descendant.
  destruct genomes as [|g1 [|g2 [|g3 rest]]]; try discriminate.
  destruct (taxon g1) as [t1|] eqn:H1; [|discriminate].
  destruct (taxon g2) as [t2|] eqn:H2; [|discriminate].
  unfold get_ancestors. repeat case_decide; intros [= <- <-].
  - exists t1, t2. rewrite strict_ancestor_iter. by auto.
  - exists t2, t1. rewrite strict_ancestor_iter. by auto.
Qed.

Lemma set_ancestor_and_descendant_related (genomes : list Genome) :
  on_same_lineage genomes →
  ∃ anc desc, HOGsMap.set_ancestor_and_descendant genomes = Ok (anc, desc).
Proof.
  intros (g1 & g2 & t1 & t2 & -> & H1 & H2 & Hrel).
  unfold HOGsMap.set_ancestor_and_descendant, get_ancestors. rewrite H1, H2.
  rewrite !strict_ancestor_iter in Hrel.
  destruct Hrel; repeat case_decide; by eauto.
Qed.

Lemma set_ancestor_and_descendant_unrelated (genomes : list Genome) :
  ¬ on_same_lineage genomes →
  HOGsMap.set_ancestor_and_descendant genomes = Raise TypeError.
Proof.
  intros Hnot.
  destruct (HOGsMap.set_ancestor_and_descendant genomes) as [[anc desc]|e] eqn:Hres.
  - destruct Hnot.
    apply set_ancestor_and_descendant_Ok in Hres as (ta & td & Ha & Hd & Hrel & [->| ->]).
    + exists anc, desc, ta, td. by auto.
    + exists desc, anc, td, ta. by auto.
  - revert Hres. unfold HOGsMap.set_ancestor_and_descendant.
    destruct genomes as [|g1 [|g2 [|g3 rest]]]; try (by intros [= <-]).
    destruct (taxon g1), (taxon g2); try (by intros [= <-]).
    repeat case_decide; try discriminate. by intros [= <-].
Qed.

Section HOGsMapProperties.
Variable enclosing_hog : TreeNode → nat → option nat.

(** C2: constructing a [HOGsMap] succeeds exactly when the input is two
    genomes whose taxonomy nodes are related by strict ancestry, the older
    one becoming the ancestor; any other input raises a [TypeError], in
    particular a singleton, a genome paired with itself, and two genomes on
    sibling branches. *)
Theorem HOGsMap_init_lineage (genomes : list Genome) :
  (on_same_lineage genomes → ∃ m, HOGsMap.init enclosing_hog genomes = Ok m)
  ∧ (¬ on_same_lineage genomes →
     HOGsMap.init enclosing_hog genomes = Raise TypeError)
  ∧ (∀ m, HOGsMap.init enclosing_hog genomes = Ok m →
       ∃ ta td, taxon (HOGsMap.ancestor m) = Some ta
         ∧ taxon (HOGsMap.descendant m) = Some td
         ∧ strict_ancestor ta td
         ∧ (genomes = [HOGsMap.ancestor m; HOGsMap.descendant m]
            ∨ genomes = [HOGsMap.descendant m; HOGsMap.ancestor m]))
  ∧ (∀ g, genomes = [g] ∨ genomes = [g; g] →
       HOGsMap.init enclosing_hog genomes = Raise TypeError)
  ∧ (∀ g1 g2 i j p, genomes = [g1; g2] →
       taxon g1 = Some (i :: p) → taxon g2 = Some (j :: p) →
       HOGsMap.init enclosing_hog genomes = Raise TypeError).
Proof.
  assert (Hunrelated : ¬ on_same_lineage genomes →
            HOGsMap.init enclosing_hog genomes = Raise TypeError).
  { intros Hnot. unfold HOGsMap.init.
    by rewrite set_ancestor_and_descendant_unrelated. }
  split_and!.
  - intros (anc & desc & Hres)%set_ancestor_and_descendant_related.
    unfold HOGsMap.init. rewrite Hres. by eexists.
  - done.
  - intros m. unfold HOGsMap.init.
    destruct (HOGsMap.set_ancestor_and_descendant genomes) as [[anc desc]|e] eqn:Hres;
      [|discriminate].
    intros [= <-]. by apply set_ancestor_and_descendant_Ok.
  - intros g Hg. apply Hunrelated.
    intros (g1 & g2 & t1 & t2 & Heq & H1 & H2 & Hrel).
    destruct Hg as [->| ->]; [discriminate|].
    injection Heq as <- <-. rewrite H1 in H2. injection H2 as <-.
    destruct Hrel as [Hrel|Hrel]; by apply strict_ancestor_irrefl in Hrel.
  - intros g1 g2 i j p -> H1 H2. apply Hunrelated.
    intros (g1' & g2' & t1 & t2 & Heq & H1' & H2' & Hrel).
    injection Heq as <- <-. rewrite H1 in H1'. rewrite H2 in H2'.
    injection H1' as <-. injection H2' as <-.
    destruct Hrel as [Hrel|Hrel]; apply strict_ancestor_depth in Hrel;
      unfold depth in Hrel; simpl in Hrel; lia.
Qed.

End HOGsMapProperties.

Lemma HOGsMap_init_lineage_witness :
  HOGsMap.init example_enclosing_hog [human; vertebrates]
  = Ok (HOGsMap.build example_enclosing_hog vertebrates human)
  ∧ HOGsMap.init example_enclosing_hog [human] = Raise TypeError
  ∧ HOGsMap.init example_enclosing_hog [human; human] = Raise TypeError
  ∧ HOGsMap.init example_enclosing_hog [human; mouse] = Raise TypeError.
Proof.
  split; [reflexivity|]. split_and!.
  - destruct (HOGsMap_init_lineage example_enclosing_hog [human])
      as (_ & _ & _ & Hself & _).
    apply (Hself human). left. reflexivity.
  - destruct (HOGsMap_init_lineage example_enclosing_hog [human; human])
      as (_ & _ & _ & Hself & _).
    apply (Hself human). right. reflexivity.
  - destruct (HOGsMap_init_lineage example_enclosing_hog [human; mouse])
      as (_ & _ & _ & _ & Hsiblings).
    apply (Hsiblings human mouse 0 1 [0]); reflexivity.
Defined.

(** *** The four classes partition genes and HOGs *)

Lemma dict_of_keys_lookup {V : Type} (f : nat → V) (keys : list nat) (k : nat) :
  HOGsMap.dict_of_keys f keys !! k = if decide (k ∈ keys) then Some (f k) else None.
Proof.
  unfold HOGsMap.dict_of_keys. induction keys as [|k0 keys IH]; simpl.
  - apply lookup_empty.
  - destruct (decide (k = k0)) as [->|Hne].
    + rewrite lookup_insert_eq. rewrite decide_True; [done|].
      apply elem_of_cons. by left.
    + rewrite lookup_insert_ne by done. rewrite IH.
      destruct (decide (k ∈ keys)) as [Hin|Hnotin].
      * rewrite decide_True; [done|]. apply elem_of_cons. by right.
      * rewrite decide_False; [done|]. apply not_elem_of_cons. by split.
Qed.

Lemma elem_of_build_GAIN (up_map : gmap nat (option nat)) (g : nat) :
  g ∈ HOGsMap.build_GAIN up_map ↔ up_map !! g = Some None.
Proof.
  unfold HOGsMap.build_GAIN. rewrite elem_of_dom. split.
  - intros [v Hv]. apply map_lookup_filter_Some in Hv as [Hv Hnone].
    simpl in Hnone. by subst.
  - intros Hg. exists None. by apply map_lookup_filter_Some.
Qed.

Lemma elem_of_genes_mapping_to (up_map : gmap nat (option nat)) (h g : nat) :
  g ∈ HOGsMap.genes_mapping_to up_map h ↔ up_map !! g = Some (Some h).
Proof.
  unfold HOGsMap.genes_mapping_to. rewrite elem_of_dom. split.
  - intros [v Hv]. apply map_lookup_filter_Some in Hv as [Hv Hsome].
    simpl in Hsome. by subst.
  - intros Hg. exists (Some h). by apply map_lookup_filter_Some.
Qed.

(** What the fold over the ancestor's HOGs leaves in each structure. *)
Lemma buildEventClusters_spec (up_map : gmap nat (option nat)) (hogs : list nat) :
  let ec := foldr (HOGsMap.classify up_map)
                  (HOGsMap.mkEventClusters ∅ ∅ ∅) hogs in
  (∀ h, h ∈ HOGsMap.ec_LOSS ec
        ↔ h ∈ hogs ∧ elements (HOGsMap.genes_mapping_to up_map h) = [])
  ∧ (∀ h g, HOGsMap.ec_SINGLE ec !! h = Some g
            ↔ h ∈ hogs ∧ elements (HOGsMap.genes_mapping_to up_map h) = [g])
  ∧ (∀ h s, HOGsMap.ec_DUPLICATE ec !! h = Some s
            ↔ h ∈ hogs ∧ s = HOGsMap.genes_mapping_to up_map h
              ∧ 2 ≤ length (elements (HOGsMap.genes_mapping_to up_map h))).
Proof.
  induction hogs as [|h0 hogs IH]; simpl.
  - split_and!.
    + intros h. rewrite elem_of_empty, elem_of_nil. tauto.
    + intros h g. rewrite lookup_empty, elem_of_nil. split; [done|tauto].
    + intros h s. rewrite lookup_empty, elem_of_nil. split; [done|tauto].
  - destruct IH as (IHl & IHs & IHd). unfold HOGsMap.classify at 1 3 5.
    destruct (elements (HOGsMap.genes_mapping_to up_map h0))
      as [|g1 [|g2 rest]] eqn:Hels; simpl; split_and!.
    + intros h. rewrite elem_of_union, elem_of_singleton, elem_of_cons, IHl.
      split; [|tauto]. intros [?| ->]; [tauto|]. by auto.
    + intros h g. rewrite IHs, elem_of_cons. split; [tauto|].
      intros [[->|?] Hg]; [congruence|done].
    + intros h s. rewrite IHd, elem_of_cons. split; [tauto|].
      intros [[->|?] [? Hlen]]; [|done]. rewrite Hels in Hlen. simpl in Hlen. lia.
    + intros h. rewrite IHl, elem_of_cons. split; [tauto|].
      intros [[->|?] Hg]; [congruence|done].
    + intros h g. rewrite elem_of_cons.
      destruct (decide (h = h0)) as [->|Hne].
      * rewrite lookup_insert_eq, Hels. split.
        -- intros [= ->]. by auto.
        -- intros [_ [= ->]]. done.
      * rewrite lookup_insert_ne by done. rewrite IHs. split; [tauto|].
        intros [[?|?] ?]; done.
    + intros h s. rewrite IHd, elem_of_cons. split; [tauto|].
      intros [[->|?] [? Hlen]]; [|done]. rewrite Hels in Hlen. simpl in Hlen. lia.
    + intros h. rewrite IHl, elem_of_cons. split; [tauto|].
      intros [[->|?] Hg]; [congruence|done].
    + intros h g. rewrite IHs, elem_of_cons. split; [tauto|].
      intros [[->|?] Hg]; [congruence|done].
    + intros h s. rewrite elem_of_cons.
      destruct (decide (h = h0)) as [->|Hne].
      * rewrite lookup_insert_eq, Hels. simpl. split.
        -- intros [= <-]. split_and!; [by left|done|lia].
        -- intros (_ & -> & _). done.
      * rewrite lookup_insert_ne by done. rewrite IHd. split; [tauto|].
        intros [[?|?] ?]; done.
Qed.

Section PartitionProperties.
Variable enclosing_hog : TreeNode → nat → option nat.

Lemma build_upMap_lookup (anc desc : Genome) (g : nat) (v : option nat) :
  HOGsMap.build_upMap enclosing_hog anc desc !! g = Some v
  ↔ g ∈ genes desc ∧ v = HOGsMap.top_of_chain enclosing_hog anc desc g.
Proof.
  unfold HOGsMap.build_upMap. rewrite dict_of_keys_lookup.
  case_decide; split.
  - intros [= <-]. by auto.
  - intros [_ ->]. done.
  - discriminate.
  - intros [? _]. done.
Qed.

Lemma top_of_chain_owned (anc desc : Genome) (g h : nat) :
  HOGsMap.top_of_chain enclosing_hog anc desc g = Some h → h ∈ genes anc.
Proof.
  unfold HOGsMap.top_of_chain.
  destruct (HOGsMap.walk_up _ _ _) as [h'|]; [|discriminate].
  case_decide; [|discriminate]. by intros [= <-].
Qed.

Lemma build_partitions_ancestor (anc desc : Genome) :
  ancestor_hogs_partitioned (HOGsMap.build enclosing_hog anc desc).
Proof.
  unfold ancestor_hogs_partitioned, HOGsMap.build, HOGsMap.buildEventClusters.
  simpl. set (up_map := HOGsMap.build_upMap enclosing_hog anc desc).
  destruct (buildEventClusters_spec up_map (genes anc)) as (Hl & Hs & Hd).
  simpl in Hl, Hs, Hd.
  set (ec := foldr (HOGsMap.classify up_map) (HOGsMap.mkEventClusters ∅ ∅ ∅)
                   (genes anc)) in *.
  assert (HS : ∀ h, h ∈ dom (HOGsMap.ec_SINGLE ec)
                    ↔ h ∈ genes anc
                      ∧ ∃ g, elements (HOGsMap.genes_mapping_to up_map h) = [g]).
  { intros h. rewrite elem_of_dom. split.
    - intros [g Hg]. apply Hs in Hg as [? ?]. by eauto.
    - intros [? [g Hg]]. exists g. by apply Hs. }
  assert (HD : ∀ h, h ∈ dom (HOGsMap.ec_DUPLICATE ec)
                    ↔ h ∈ genes anc
                      ∧ 2 ≤ length (elements (HOGsMap.genes_mapping_to up_map h))).
  { intros h. rewrite elem_of_dom. split.
    - intros [s Hs']. apply Hd in Hs' as (? & ? & ?). by auto.
    - intros [? ?]. eexists. by apply Hd. }
  split.
  - intros h Hin. unfold exactly_one. rewrite Hl, HS, HD.
    destruct (elements (HOGsMap.genes_mapping_to up_map h))
      as [|g1 [|g2 rest]] eqn:Hels; simpl; split_and!.
    + by auto.
    + intros [_ [_ [g ?]]]. discriminate.
    + intros [_ [_ ?]]. lia.
    + intros [[_ [g ?]] _]. discriminate.
    + right. left. by eauto.
    + intros [[_ ?] _]. discriminate.
    + intros [_ [_ ?]]. lia.
    + intros [_ [_ ?]]. lia.
    + right. right. split; [done|lia].
    + intros [[_ ?] _]. discriminate.
    + intros [[_ ?] _]. discriminate.
    + intros [[_ [g ?]] _]. discriminate.
  - apply set_eq. intros h.
    rewrite !elem_of_union, Hl, HS, HD, elem_of_list_to_set.
    split; [tauto|]. intros Hin.
    destruct (elements (HOGsMap.genes_mapping_to up_map h))
      as [|g1 [|g2 rest]]; simpl.
    + by auto.
    + left. right. by eauto.
    + right. split; [done|lia].
Qed.

Lemma build_partitions_descendant (anc desc : Genome) :
  descendant_genes_partitioned (HOGsMap.build enclosing_hog anc desc).
Proof.
  unfold descendant_genes_partitioned, HOGsMap.build, HOGsMap.buildEventClusters.
  simpl. set (up_map := HOGsMap.build_upMap enclosing_hog anc desc).
  destruct (buildEventClusters_spec up_map (genes anc)) as (_ & Hs & Hd).
  simpl in Hs, Hd.
  set (ec := foldr (HOGsMap.classify up_map) (HOGsMap.mkEventClusters ∅ ∅ ∅)
                   (genes anc)) in *.
  assert (Hsingle : ∀ g, (∃ h, HOGsMap.ec_SINGLE ec !! h = Some g)
            → ∃ h, up_map !! g = Some (Some h)
                   ∧ elements (HOGsMap.genes_mapping_to up_map h) = [g]).
  { intros g [h Hg]. apply Hs in Hg as [_ Hels]. exists h. split; [|done].
    apply elem_of_genes_mapping_to, elem_of_elements. rewrite Hels.
    apply list_elem_of_here. }
  assert (Hdup : ∀ g, (∃ h s, HOGsMap.ec_DUPLICATE ec !! h = Some s ∧ g ∈ s)
            → ∃ h, up_map !! g = Some (Some h)
                   ∧ 2 ≤ length (elements (HOGsMap.genes_mapping_to up_map h))).
  { intros g (h & s & Hg & Hin). apply Hd in Hg as (_ & -> & Hlen).
    exists h. split; [|done]. by apply elem_of_genes_mapping_to. }
  split.
  - intros g Hin. unfold exactly_one. split_and!.
    + destruct (HOGsMap.top_of_chain enclosing_hog anc desc g) as [h|] eqn:Htop.
      * assert (Hup : up_map !! g = Some (Some h))
          by (by apply build_upMap_lookup).
        assert (Hg : g ∈ elements (HOGsMap.genes_mapping_to up_map h))
          by (by apply elem_of_elements, elem_of_genes_mapping_to).
        apply top_of_chain_owned in Htop.
        destruct (elements (HOGsMap.genes_mapping_to up_map h))
          as [|g1 [|g2 rest]] eqn:Hels.
        -- by apply elem_of_nil in Hg.
        -- apply list_elem_of_singleton in Hg as ->.
           right. left. exists h. by apply Hs.
        -- right. right. exists h, (HOGsMap.genes_mapping_to up_map h).
           split; [|by apply elem_of_genes_mapping_to].
           apply Hd. split_and!; [done|done|]. rewrite Hels. simpl. lia.
      * left. apply elem_of_build_GAIN. by apply build_upMap_lookup.
    + intros [Hgain (h & Hup & _)%Hsingle].
      apply elem_of_build_GAIN in Hgain. congruence.
    + intros [Hgain (h & Hup & _)%Hdup].
      apply elem_of_build_GAIN in Hgain. congruence.
    + intros [(h & Hup & Hels)%Hsingle (h' & Hup' & Hlen)%Hdup].
      assert (h' = h) as -> by congruence. rewrite Hels in Hlen.
      simpl in Hlen. lia.
  - intros g [Hgain|[(h & Hup & _)%Hsingle|(h & Hup & _)%Hdup]].
    + apply elem_of_build_GAIN in Hgain. by apply build_upMap_lookup in Hgain as [? _].
    + by apply build_upMap_lookup in Hup as [? _].
    + by apply build_upMap_lookup in Hup as [? _].
Qed.

(** C1: in every [HOGsMap] that construction accepts, each HOG of the
    ancestor is in exactly one of LOSS, the keys of SINGLE and the keys of
    DUPLICATE, each gene of the descendant is exactly one of: a member of
    GAIN, the value of a SINGLE pair, a member of a DUPLICATE set; and the
    four structures hold nothing else. *)
Theorem HOGsMap_partition (genomes : list Genome) (m : HOGsMap.t) :
  HOGsMap.init enclosing_hog genomes = Ok m →
  ancestor_hogs_partitioned m ∧ descendant_genes_partitioned m.
Proof.
  unfold HOGsMap.init.
  destruct (HOGsMap.set_ancestor_and_descendant genomes) as [[anc desc]|e];
    [|discriminate].
  intros [= <-]. split.
  - apply build_partitions_ancestor.
  - apply build_partitions_descendant.
Qed.

End PartitionProperties.

Lemma HOGsMap_partition_witness :
  let m := HOGsMap.build example_enclosing_hog vertebrates human in
  HOGsMap.init example_enclosing_hog [human; vertebrates] = Ok m
  ∧ ancestor_hogs_partitioned m ∧ descendant_genes_partitioned m.
Proof.
  intros m. split; [reflexivity|].
  apply (HOGsMap_partition example_enclosing_hog [human; vertebrates] m).
  reflexivity.
Defined.

(** ** Taxonomy.__init__ and the name checks *)

Lemma Tree_ind (P : Tree → Prop) :
  (∀ d cs, Forall P cs → P (Node d cs)) → ∀ t, P t.
Proof.
  intros Hnode. fix IH 1. intros [d cs]. apply Hnode.
  induction cs as [|c cs IHcs]; constructor; [apply IH|apply IHcs].
Qed.

Lemma len_set_le (l : list (option string)) : len_set l ≤ length l.
Proof.
  unfold len_set. induction l as [|x l IH].
  - done.
  - rewrite list_to_set_cons, size_union_alt, size_singleton. simpl.
    assert (size (list_to_set l ∖ {[x]} : gset (option string))
            ≤ size (list_to_set l : gset (option string))).
    { apply subseteq_size, subseteq_difference_l. done. }
    lia.
Qed.

Lemma len_set_NoDup (l : list (option string)) :
  length l = len_set l ↔ NoDup l.
Proof.
  split.
  - induction l as [|x l IH]; [constructor|].
    unfold len_set. simpl. intros Hlen.
    destruct (decide (x ∈ l)) as [Hin|Hnotin].
    + rewrite subseteq_union_1_L in Hlen
        by (by apply singleton_subseteq_l, elem_of_list_to_set).
      pose proof (len_set_le l) as Hle. unfold len_set in Hle. lia.
    + constructor; [done|]. apply IH. unfold len_set.
      rewrite size_union, size_singleton in Hlen
        by (by apply disjoint_singleton_l; rewrite elem_of_list_to_set).
      lia.
  - intros Hnd. unfold len_set. by rewrite size_list_to_set.
Qed.

(** The leaf test is the only one of the two closing tests that can fail. *)
Lemma check_unique_leaves_only (leafs ints : list (option string)) :
  (check_unique leafs ints = Raise KeyError ↔ ¬ NoDup leafs)
  ∧ (check_unique leafs ints = Ok () ↔ NoDup leafs).
Proof.
  unfold check_unique. rewrite <- len_set_NoDup.
  destruct (decide (length leafs ≠ len_set leafs)) as [Hne|Heq].
  - split; split; [done|done|discriminate|done].
  - apply dec_stable in Heq. rewrite decide_False by (intros H; by apply H).
    split; split; [discriminate|done|done|done].
Qed.

Lemma share_name_NoDup (t : Tree) :
  two_leaves_share_name t ↔ ¬ NoDup (leaf_names t).
Proof.
  unfold two_leaves_share_name. generalize (leaf_names t) as l. intros l. split.
  - intros (i & j & nm & Hne & Hi & Hj) Hnd.
    apply Hne. by eapply NoDup_alt.
  - induction l as [|x l IH]; intros Hnd.
    + destruct Hnd. constructor.
    + destruct (decide (x ∈ l)) as [Hin|Hnotin].
      * apply list_elem_of_lookup in Hin as [j Hj].
        exists 0, (S j), x. by auto.
      * destruct IH as (i & j & nm & Hne & Hi & Hj).
        { intros Hl. apply Hnd. by constructor. }
        exists (S i), (S j), nm. split_and!; [lia|done|done].
Qed.

Lemma iter_leaves_rename (t : Tree) :
  iter_leaves (rename_internal_nodes t) = iter_leaves t.
Proof.
  induction t as [d cs IH] using Tree_ind.
  destruct cs as [|c cs]; [done|].
  change (flat_map iter_leaves (map rename_internal_nodes (c :: cs))
          = flat_map iter_leaves (c :: cs)).
  induction IH as [|c' cs' Hc' _ IH']; simpl; [done|].
  by rewrite Hc', IH'.
Qed.

Lemma forest_size_app (q1 q2 : list Tree) :
  forest_size (q1 ++ q2) = forest_size q1 + forest_size q2.
Proof. unfold forest_size. by rewrite map_app, list_sum_app. Qed.

Lemma tree_size_children (t : Tree) :
  tree_size t = S (forest_size (get_children t)).
Proof. by destruct t. Qed.

Lemma leaf_names_node (t : Tree) :
  leaf_names t
  = if is_leaf t then [node_name (data t)]
    else flat_map leaf_names (get_children t).
Proof.
  destruct t as [d [|c cs]]; [done|].
  unfold leaf_names, is_leaf. simpl.
  rewrite fmap_app. f_equal.
  induction cs as [|c' cs IH]; simpl; [done|].
  by rewrite fmap_app, IH.
Qed.

(** The level-order walk visits every leaf of the queued trees once. *)
Lemma levelorder_loop_leaves (fuel : nat) (q : list Tree) :
  forest_size q ≤ fuel →
  omap leaf_name_of (levelorder_loop fuel q) ≡ₚ flat_map leaf_names q.
Proof.
  revert q. induction fuel as [|fuel IH]; intros q Hsize.
  - destruct q as [|t q]; [done|].
    unfold forest_size in Hsize. simpl in Hsize. destruct t. simpl in Hsize. lia.
  - destruct q as [|t q]; [done|].
    change (levelorder_loop (S fuel) (t :: q))
      with (t :: levelorder_loop fuel (q ++ get_children t)).
    assert (Hrest : forest_size (q ++ get_children t) ≤ fuel).
    { rewrite forest_size_app. unfold forest_size in Hsize |- *.
      simpl in Hsize. rewrite tree_size_children in Hsize.
      unfold forest_size in Hsize. lia. }
    specialize (IH _ Hrest). rewrite flat_map_app in IH.
    simpl. rewrite (leaf_names_node t). unfold leaf_name_of at 1.
    destruct (is_leaf t) eqn:Hleaf; simpl.
    + rewrite IH. destruct t as [d [|c cs]]; [|done]. simpl.
      by rewrite app_nil_r.
    + rewrite IH. apply Permutation_app_comm.
Qed.

Lemma traverse_leaves (t : Tree) :
  omap leaf_name_of (traverse t) ≡ₚ leaf_names t.
Proof.
  unfold traverse. rewrite levelorder_loop_leaves.
  - simpl. by rewrite app_nil_r.
  - unfold forest_size. simpl. lia.
Qed.

Lemma is_newick_not_phyloxml (fmt : string) : is_newick fmt → fmt ≠ "phyloxml".
Proof. intros [-> | ->]; discriminate. Qed.

Lemma build_tree_newick (t : Tree) (fmt : string) (use_internal : bool)
  (tag : option string) :
  is_newick fmt → _build_tree t fmt use_internal tag = Ok (Some t).
Proof.
  intros [-> | ->]; unfold _build_tree.
  - by rewrite decide_True.
  - rewrite decide_False by discriminate. by rewrite decide_True.
Qed.

Lemma collect_names_newick (fmt : string) (tag : option string)
  (nodes : list Tree) (leafs ints : list (option string)) :
  fmt ≠ "phyloxml" →
  collect_names fmt tag nodes leafs ints
  = Ok (leafs ++ omap leaf_name_of nodes, ints ++ omap int_name_of nodes).
Proof.
  intros Hfmt. revert leafs ints.
  induction nodes as [|node nodes IH]; intros leafs ints; simpl.
  - by rewrite !app_nil_r.
  - unfold leaf_name_of at 1, int_name_of at 1.
    rewrite !decide_False by done.
    destruct (is_leaf node); rewrite IH; simpl; by rewrite <- app_assoc.
Qed.

Lemma generate_internal_leaf_names (use_internal : bool) (t : Tree) :
  leaf_names (_generate_internal_node_name use_internal t) = leaf_names t.
Proof.
  unfold leaf_names, _generate_internal_node_name.
  destruct use_internal; [done|]. by rewrite iter_leaves_rename.
Qed.

(** Outside phyloxml the consistency check fails exactly on a repeated leaf
    name, and succeeds otherwise. *)
Lemma check_consistency_names_newick (fmt : string) (tag : option string) (t : Tree) :
  fmt ≠ "phyloxml" →
  (_check_consistency_names fmt tag t = Raise KeyError ↔ ¬ NoDup (leaf_names t))
  ∧ (_check_consistency_names fmt tag t = Ok () ↔ NoDup (leaf_names t)).
Proof.
  intros Hfmt. unfold _check_consistency_names.
  rewrite collect_names_newick by done. simpl.
  rewrite <- (traverse_leaves t). apply check_unique_leaves_only.
Qed.

(** C9, as stated, does not hold: a phyloxml tree whose only clade has no
    usable name makes the construction raise a [KeyError], raised by
    [_get_name_phyloxml], although no two leaves share a name. *)
Lemma Taxonomy_init_KeyError_without_duplicate :
  Taxonomy_init nameless_clade "phyloxml" false None = Raise KeyError
  ∧ ¬ two_leaves_share_name nameless_clade
  ∧ ¬ KeyError_iff_duplicate_leaves.
Proof.
  assert (Hraise : Taxonomy_init nameless_clade "phyloxml" false None
                   = Raise KeyError) by reflexivity.
  assert (Hnodup : ¬ two_leaves_share_name nameless_clade).
  { rewrite share_name_NoDup. intros Hdup. apply Hdup.
    apply NoDup_singleton. }
  split_and!; [done|done|].
  intros Hiff. apply Hnodup. by apply (Hiff _ "phyloxml" false None).
Qed.

(** C9, amended: for a tree given in newick form ([newick_string] or
    [newick]) the construction raises a [KeyError] if and only if two leaves
    share a name, and succeeds otherwise; duplicate names of inner nodes are
    never rejected, since of the two closing tests only the one on the leaf
    names can fail. *)
Theorem Taxonomy_init_KeyError_newick (t : Tree) (fmt : string)
  (use_internal : bool) (tag : option string) :
  is_newick fmt →
  (Taxonomy_init t fmt use_internal tag = Raise KeyError
   ↔ two_leaves_share_name t)
  ∧ (¬ two_leaves_share_name t →
     ∃ tax, Taxonomy_init t fmt use_internal tag = Ok tax)
  ∧ (∀ leafs ints, check_unique leafs ints = Raise KeyError ↔ ¬ NoDup leafs).
Proof.
  intros Hfmt. unfold Taxonomy_init.
  rewrite build_tree_newick by done. simpl.
  pose proof (is_newick_not_phyloxml fmt Hfmt) as Hne.
  destruct (check_consistency_names_newick fmt tag
              (_generate_internal_node_name use_internal t) Hne)
    as [Hraise Hok].
  rewrite generate_internal_leaf_names in Hraise, Hok.
  rewrite share_name_NoDup.
  destruct (_check_consistency_names fmt tag
              (_generate_internal_node_name use_internal t)) as [[]|e] eqn:Hcheck;
    simpl.
  - assert (Hnd : NoDup (leaf_names t)) by (by apply Hok).
    split_and!.
    + split; [discriminate|]. intros Hdup. by destruct Hdup.
    + intros _. by eexists.
    + intros leafs ints. apply check_unique_leaves_only.
  - split_and!.
    + split.
      * intros [= ->]. by apply Hraise.
      * intros Hdup. apply Hraise in Hdup. congruence.
    + intros Hnd. apply dec_stable in Hnd.
      apply Hok in Hnd. discriminate.
    + intros leafs ints. apply check_unique_leaves_only.
Qed.

Lemma Taxonomy_init_KeyError_newick_witness :
  is_newick "newick_string"
  ∧ ¬ two_leaves_share_name twice_anc
  ∧ ∃ tax, Taxonomy_init twice_anc "newick_string" true None = Ok tax.
Proof.
  assert (Hfmt : is_newick "newick_string") by (left; reflexivity).
  assert (Hnd : ¬ two_leaves_share_name twice_anc).
  { intros (i & j & nm & Hne & Hi & Hj). apply Hne.
    destruct i as [|[|[|i]]], j as [|[|[|j]]]; simpl in Hi, Hj;
      try reflexivity; try congruence; try discriminate. }
  split; [exact Hfmt|]. split; [exact Hnd|].
  destruct (Taxonomy_init_KeyError_newick twice_anc "newick_string" true None Hfmt)
    as (_ & Hok & _).
  exact (Hok Hnd).
Defined.

(** ** Worked examples *)

Example get_path_up_two_levels : get_path_up [1; 0; 2] [] = [[0; 2]; [2]].
Proof. reflexivity. Qed.

Example get_path_up_parent : get_path_up [0; 2] [2] = [].
Proof. reflexivity. Qed.

Example get_path_up_sibling : get_path_up [0; 2] [1; 2] = [[2]; []].
Proof. reflexivity. Qed.

(** Level order: the root, its children, then the grandchildren. *)
Example traverse_twice_anc :
  (node_name ∘ data) <$> traverse twice_anc
  = [Some "anc"; Some "anc"; Some "XENTR"; Some "HUMAN"; Some "MOUSE"].
Proof. reflexivity. Qed.

(** Without [use_internal_name] the inner nodes are renamed after their
    leaves. *)
Example generated_names_twice_anc :
  (node_name ∘ data) <$> traverse (_generate_internal_node_name false twice_anc)
  = [Some "HUMAN/MOUSE/XENTR"; Some "HUMAN/MOUSE"; Some "XENTR";
     Some "HUMAN"; Some "MOUSE"].
Proof. reflexivity. Qed.

Example Taxonomy_init_duplicate_leaf :
  Taxonomy_init
    (Node (mkNodeData (Some "") [] None None)
       [Node (mkNodeData (Some "HUMAN") [] None None) [];
        Node (mkNodeData (Some "HUMAN") [] None None) []])
    "newick_string" false None
  = Raise KeyError.
Proof. reflexivity. Qed.

Example Taxonomy_init_unknown_format :
  Taxonomy_init twice_anc "nexus" true None = Raise AttributeError.
Proof. reflexivity. Qed.

(** The fixture of test_UpMap: the human genes 1 and 3 reach a Vertebrates
    HOG, gene 2 reaches none. *)
Example upMap_human_vertebrates :
  let m := HOGsMap.build example_enclosing_hog vertebrates human in
  HOGsMap.upMap m !! 1 = Some (Some 101)
  ∧ HOGsMap.upMap m !! 2 = Some None
  ∧ HOGsMap.upMap m !! 3 = Some (Some 103)
  ∧ HOGsMap.GAIN m = {[2]}
  ∧ HOGsMap.LOSS m = ∅
  ∧ HOGsMap.SINGLE m = {[101 := 1; 103 := 3]}
  ∧ HOGsMap.DUPLICATE m = ∅.
Proof. vm_compute. by repeat split. Qed.

(** Against Euarchontoglires, HOG 14 has no human gene: it is lost. *)
Example events_human_euarchontoglires :
  let m := HOGsMap.build example_enclosing_hog euarchontoglires human in
  HOGsMap.GAIN m = ∅
  ∧ HOGsMap.LOSS m = {[14]}
  ∧ HOGsMap.SINGLE m = {[11 := 1; 12 := 2; 13 := 3]}.
Proof. vm_compute. by repeat split. Qed.

(** Attaching an ancestral genome names it after the node and records the
    node among the internal nodes. *)
Example add_genome_to_node_ancestral :
  let root := mkNodeData (Some "HUMAN/MOUSE") [] (Some 0) None in
  let g := mkGenome 9 AncestralGenome [] None None None in
  add_genome_to_node example_taxonomy (ObjTreeNode [] root) (ObjGenome g)
  = (add_internal_node example_taxonomy [],
     ObjTreeNode [] (add_feature_genome root (RefGenome 9)),
     ObjGenome (mkGenome 9 AncestralGenome [] (Some []) (Some "HUMAN/MOUSE") None),
     Ok ()).
Proof. reflexivity. Qed.

Example add_gene_appends :
  add_gene human (ObjGene example_gene)
  = (set_genes human [1; 2; 3; 31],
     ObjGene (mkAbstractGene 31 Gene {["test"]} (Some 3) [] (Some 1)),
     Ok ()).
Proof. reflexivity. Qed.

(** * Further properties *)

(** ** Genome: sequences of calls and gene counts *)

Lemma set_taxon_field_taxon (self : Genome) : set_taxon_field self (taxon self) = self.
Proof. by destruct self. Qed.

Lemma set_taxon_state (self : Genome) (arg : PyObj) :
  (set_taxon self arg).1
  = set_taxon_field self
      (match taxon self with
       | Some t => Some t
       | None => first_tree_node [arg]
       end).
Proof.
  unfold set_taxon. destruct (taxon self) as [t|] eqn:Ht.
  - destruct arg; simpl; try (by rewrite <- Ht, set_taxon_field_taxon).
    case_decide as Hd; simpl; [by rewrite <- Ht, set_taxon_field_taxon|].
    destruct (decide (n = t)) as [->|Hne]; [done|].
    destruct Hd. split; congruence.
  - destruct arg; simpl; try (by rewrite <- Ht, set_taxon_field_taxon).
    done.
Qed.

(** X1: whatever the arguments of a series of [set_taxon] calls, and
    whichever of them raise, the genome ends with the taxon it had, or, if
    it had none, with the first tree node it was given; nothing else in the
    genome moves. *)
Theorem set_taxon_calls_first_node (self : Genome) (args : list PyObj) :
  set_taxon_calls self args
  = set_taxon_field self
      (match taxon self with
       | Some t => Some t
       | None => first_tree_node args
       end).
Proof.
  revert self. induction args as [|arg args IH]; intros self; simpl.
  - destruct (taxon self) eqn:Ht; by rewrite <- Ht, set_taxon_field_taxon.
  - rewrite IH, set_taxon_state. simpl.
    destruct (taxon self) as [t|]; [done|].
    by destruct arg.
Qed.

(** X2: a series of [add_gene] calls appends the genes among its arguments
    in call order, a gene given twice being listed twice, and stores nothing
    for the arguments it rejects; the gene count grows by the number of
    genes given, and the taxon is not touched. *)
Theorem add_gene_calls_appends (self : Genome) (args : list PyObj) :
  add_gene_calls self args = set_genes self (genes self ++ gene_refs args)
  ∧ AncestralGenome_get_number_genes (add_gene_calls self args)
    = AncestralGenome_get_number_genes self + length (gene_refs args)
  ∧ taxon (add_gene_calls self args) = taxon self.
Proof.
  assert (Hstate : ∀ args self,
    add_gene_calls self args = set_genes self (genes self ++ gene_refs args)).
  { clear. intros args. induction args as [|arg args IH]; intros self; simpl.
    - rewrite app_nil_r. by destruct self.
    - rewrite IH. unfold gene_refs.
      destruct arg; simpl; try done.
      by rewrite <- app_assoc. }
  rewrite Hstate. split_and!; [done| |done].
  unfold AncestralGenome_get_number_genes. simpl. by rewrite length_app.
Qed.

Lemma count_with_parent_filter (store : nat → AbstractGene) (gs : list nat) (nbr : nat) :
  count_with_parent store gs nbr
  = nbr + length (filter (λ g, is_Some (gene_parent (store g))) gs).
Proof.
  revert nbr. induction gs as [|g gs IH]; intros nbr; simpl; [lia|].
  rewrite IH. destruct (gene_parent (store g)) as [p|] eqn:Hp.
  - rewrite filter_cons_True by (rewrite Hp; by eexists). simpl. lia.
  - rewrite filter_cons_False; [done|]. rewrite Hp. by intros [? ?].
Qed.

(** X3: an extant genome never counts more genes without its singletons
    than with them, and the two counts agree exactly when every listed gene
    has a parent. *)
Theorem get_number_genes_singleton (store : nat → AbstractGene) (self : Genome) :
  ExtantGenome_get_number_genes store self false
  ≤ ExtantGenome_get_number_genes store self true
  ∧ (ExtantGenome_get_number_genes store self false
     = ExtantGenome_get_number_genes store self true
     ↔ Forall (λ g, is_Some (gene_parent (store g))) (genes self)).
Proof.
  unfold ExtantGenome_get_number_genes. rewrite count_with_parent_filter.
  simpl. split; [apply length_filter|].
  generalize (genes self) as gs. intros gs.
  induction gs as [|g gs IH]; [by split|].
  pose proof (length_filter (λ g, is_Some (gene_parent (store g))) gs) as Hle.
  destruct (decide (is_Some (gene_parent (store g)))) as [Hg|Hg].
  - rewrite filter_cons_True by done. simpl. rewrite Forall_cons. split.
    + intros Heq. split; [done|]. apply IH. lia.
    + intros [_ Hall]. apply IH in Hall. lia.
  - rewrite filter_cons_False by done. simpl. rewrite Forall_cons. split.
    + intros Heq. lia.
    + by intros [? _].
Qed.

Lemma size_list_to_set_le (l : list nat) : size (list_to_set l : gset nat) ≤ length l.
Proof.
  induction l as [|x l IH]; [done|].
  rewrite list_to_set_cons, size_union_alt, size_singleton. simpl.
  assert (size (list_to_set l ∖ {[x]} : gset nat) ≤ size (list_to_set l : gset nat)).
  { apply subseteq_size, subseteq_difference_l. done. }
  lia.
Qed.

Lemma size_list_to_set_NoDup (l : list nat) :
  size (list_to_set l : gset nat) = length l ↔ NoDup l.
Proof.
  split; [|apply size_list_to_set].
  induction l as [|x l IH]; [constructor|].
  rewrite list_to_set_cons. simpl. intros Hlen.
  pose proof (size_list_to_set_le l) as Hle.
  destruct (decide (x ∈ l)) as [Hin|Hnotin].
  - rewrite subseteq_union_1_L in Hlen
      by (by apply singleton_subseteq_l, elem_of_list_to_set).
    lia.
  - constructor; [done|]. apply IH.
    rewrite size_union, size_singleton in Hlen
      by (by apply disjoint_singleton_l; rewrite elem_of_list_to_set).
    lia.
Qed.

Section ClusteringAndGenes.
Context {Descendants : Type}.
Variable get_all_descendant_genes : nat → Descendants.

Lemma first_call_result (self : Genome) (h : Heap Descendants) :
  genome_class self = AncestralGenome →
  ancestral_clustering self = None →
  ∃ l, dicts h !! l = None
    ∧ get_ancestral_clustering get_all_descendant_genes self h
      = (set_ancestral_clustering self (Some l),
         mkHeap (<[l := clustering_of get_all_descendant_genes ∅ (genes self)]>
                   (dicts h))
                (calls h ++ genes self),
         Ok l).
Proof.
  intros Hcls Hnone. unfold get_ancestral_clustering. rewrite Hcls, Hnone.
  exists (fresh (dom (dicts h))). split.
  - apply not_elem_of_dom, is_fresh.
  - rewrite (fill_clustering_heap _ _ (genes self) _ ∅)
      by (simpl; apply lookup_insert_eq).
    simpl. by rewrite insert_insert_eq.
Qed.

(** X4: the clustering is never refreshed.  A gene added to an ancestral
    genome after the first call is owned by the genome, yet a further call
    still returns the first dict, untouched, and the gene is not among its
    keys. *)
Theorem get_ancestral_clustering_stale (self : Genome) (h : Heap Descendants)
  (g : AbstractGene) :
  genome_class self = AncestralGenome →
  ancestral_clustering self = None →
  gene_oid g ∉ genes self →
  ∃ self1 h1 l d,
    get_ancestral_clustering get_all_descendant_genes self h = (self1, h1, Ok l)
    ∧ gene_oid g ∈ genes (add_gene self1 (ObjGene g)).1.1
    ∧ get_ancestral_clustering get_all_descendant_genes
        (add_gene self1 (ObjGene g)).1.1 h1
      = ((add_gene self1 (ObjGene g)).1.1, h1, Ok l)
    ∧ dicts h1 !! l = Some d
    ∧ d !! gene_oid g = None.
Proof.
  intros Hcls Hnone Hnotin.
  destruct (first_call_result self h Hcls Hnone) as (l & Hfresh & Hcall).
  eexists _, _, l, _. split; [exact Hcall|]. simpl. split_and!.
  - apply elem_of_app. right. apply list_elem_of_here.
  - unfold get_ancestral_clustering. simpl. by rewrite Hcls.
  - apply lookup_insert_eq.
  - rewrite clustering_of_lookup. by rewrite decide_False.
Qed.

(** X5: the dict of a first call has at most as many keys as
    [get_number_genes] counts, exactly as many when no gene is listed twice;
    [get_all_descendant_genes] is called once per listed gene, repeats
    included. *)
Theorem get_ancestral_clustering_size (self : Genome) (h : Heap Descendants) :
  genome_class self = AncestralGenome →
  ancestral_clustering self = None →
  ∃ self1 h1 l d,
    get_ancestral_clustering get_all_descendant_genes self h = (self1, h1, Ok l)
    ∧ dicts h1 !! l = Some d
    ∧ size d ≤ AncestralGenome_get_number_genes self
    ∧ (size d = AncestralGenome_get_number_genes self ↔ NoDup (genes self))
    ∧ length (calls h1)
      = length (calls h) + AncestralGenome_get_number_genes self.
Proof.
  intros Hcls Hnone.
  destruct (first_call_result self h Hcls Hnone) as (l & Hfresh & Hcall).
  eexists _, _, l, _. split; [exact Hcall|]. simpl.
  split; [apply lookup_insert_eq|].
  unfold AncestralGenome_get_number_genes.
  rewrite <- size_dom, clustering_of_dom.
  split_and!.
  - apply size_list_to_set_le.
  - apply size_list_to_set_NoDup.
  - by rewrite length_app.
Qed.

End ClusteringAndGenes.

Lemma get_ancestral_clustering_stale_witness :
  let f := λ hog : nat, [hog] in
  let h := mkHeap (∅ : gmap nat (gmap nat (list nat))) [] in
  genome_class vertebrates = AncestralGenome
  ∧ ancestral_clustering vertebrates = None
  ∧ (gene_oid example_hog ∉ genes vertebrates)
  ∧ ∃ self1 h1 l d,
      get_ancestral_clustering f vertebrates h = (self1, h1, Ok l)
      ∧ gene_oid example_hog ∈ genes (add_gene self1 (ObjGene example_hog)).1.1
      ∧ get_ancestral_clustering f (add_gene self1 (ObjGene example_hog)).1.1 h1
        = ((add_gene self1 (ObjGene example_hog)).1.1, h1, Ok l)
      ∧ dicts h1 !! l = Some d
      ∧ d !! gene_oid example_hog = None.
Proof.
  intros f h.
  assert (Hnotin : gene_oid example_hog ∉ genes vertebrates).
  { simpl. intros Hin.
    apply elem_of_cons in Hin as [Hin|Hin]; [discriminate|].
    apply elem_of_cons in Hin as [Hin|Hin]; [discriminate|].
    by apply elem_of_nil in Hin. }
  split; [reflexivity|]. split; [reflexivity|]. split; [exact Hnotin|].
  exact (get_ancestral_clustering_stale f vertebrates h example_hog
           eq_refl eq_refl Hnotin).
Defined.

Lemma get_ancestral_clustering_size_witness :
  let f := λ hog : nat, [hog] in
  let h := mkHeap (∅ : gmap nat (gmap nat (list nat))) [] in
  genome_class vertebrates = AncestralGenome
  ∧ ancestral_clustering vertebrates = None
  ∧ ∃ self1 h1 l d,
      get_ancestral_clustering f vertebrates h = (self1, h1, Ok l)
      ∧ dicts h1 !! l = Some d
      ∧ size d ≤ AncestralGenome_get_number_genes vertebrates
      ∧ (size d = AncestralGenome_get_number_genes vertebrates
         ↔ NoDup (genes vertebrates))
      ∧ length (calls h1)
        = length (calls h) + AncestralGenome_get_number_genes vertebrates.
Proof.
  intros f h. split; [reflexivity|]. split; [reflexivity|].
  exact (get_ancestral_clustering_size f vertebrates h eq_refl eq_refl).
Defined.

(** ** get_path_up: lengths, depths and composition *)

Lemma path_up_loop_prefix (l : list TreeNode) (a : TreeNode) :
  ∃ rest, l = path_up_loop l a ++ rest.
Proof.
  induction l as [|x l [rest IH]]; simpl; [by exists []|].
  case_decide.
  - by eexists.
  - exists rest. simpl. by rewrite <- IH.
Qed.

Lemma iter_ancestors_length (n : TreeNode) : length (iter_ancestors n) = depth n.
Proof. unfold depth. induction n as [|i p IH]; simpl; [done|]. by rewrite IH. Qed.

Lemma iter_ancestors_lookup_depth (n : TreeNode) (i : nat) (x : TreeNode) :
  iter_ancestors n !! i = Some x → depth x + S i = depth n.
Proof.
  unfold depth. revert i. induction n as [|j p IH]; intros i; simpl; [done|].
  destruct i as [|i]; simpl.
  - intros [= <-]. lia.
  - intros Hx. apply IH in Hx. lia.
Qed.

Lemma path_up_loop_app (l1 l2 : list TreeNode) (b : TreeNode) :
  b ∉ l1 → path_up_loop (l1 ++ l2) b = l1 ++ path_up_loop l2 b.
Proof.
  induction l1 as [|x l1 IH]; simpl; [done|].
  intros [Hne Hnotin]%not_elem_of_cons.
  rewrite decide_False by done. by rewrite IH.
Qed.

(** X6: the entry at index [i] of a path lies [i + 1] levels above the
    lowest node, whatever the second argument; the path to a strict ancestor
    has one entry per level strictly between the two nodes, and the path to
    any other node has one entry per ancestor. *)
Theorem get_path_up_depths (n a : TreeNode) :
  (∀ i x, get_path_up n a !! i = Some x → depth x + S i = depth n)
  ∧ (strict_ancestor a n → length (get_path_up n a) + S (depth a) = depth n)
  ∧ (¬ strict_ancestor a n → length (get_path_up n a) = depth n).
Proof.
  unfold get_path_up. split_and!.
  - intros i x Hx. apply (iter_ancestors_lookup_depth n i x).
    destruct (path_up_loop_prefix (iter_ancestors n) a) as [rest Hrest].
    rewrite Hrest. by apply lookup_app_l_Some.
  - intros Ha. apply strict_ancestor_iter in Ha.
    destruct (path_up_loop_split _ _ Ha) as (l1 & l2 & Hsplit & _ & ->).
    pose proof (iter_ancestors_length n) as Hlen.
    rewrite Hsplit, length_app in Hlen. simpl in Hlen.
    apply iter_ancestors_split in Hsplit. subst l2.
    rewrite iter_ancestors_length in Hlen. lia.
  - intros Ha. rewrite strict_ancestor_iter in Ha.
    rewrite path_up_loop_absent by done. apply iter_ancestors_length.
Qed.

(** X7: paths compose.  With [a] strictly between [n] and [b], the path
    from [n] to [b] is the path from [n] to [a], then [a], then the path
    from [a] to [b]. *)
Theorem get_path_up_compose (n a b : TreeNode) :
  strict_ancestor a n → strict_ancestor b a →
  get_path_up n b = get_path_up n a ++ a :: get_path_up a b.
Proof.
  intros Han Hba. unfold get_path_up.
  apply strict_ancestor_iter in Han.
  destruct (path_up_loop_split _ _ Han) as (l1 & l2 & Hsplit & Hnotin & ->).
  pose proof (iter_ancestors_split _ _ _ _ Hsplit) as Hl2. subst l2.
  rewrite Hsplit.
  assert (Hb : b ∉ l1).
  { intros Hb. apply list_elem_of_split in Hb as (k1 & k2 & ->).
    rewrite <- app_assoc in Hsplit. simpl in Hsplit.
    apply iter_ancestors_split in Hsplit.
    assert (Hab : strict_ancestor a b).
    { apply strict_ancestor_iter. rewrite Hsplit.
      apply elem_of_app. right. apply list_elem_of_here. }
    destruct (strict_ancestor_irrefl a). by eapply strict_ancestor_trans. }
  rewrite path_up_loop_app by done. simpl.
  rewrite decide_False; [done|].
  intros ->. by apply strict_ancestor_irrefl in Hba.
Qed.

Lemma get_path_up_compose_witness :
  strict_ancestor [2] [1; 0; 2] ∧ strict_ancestor [] [2]
  ∧ get_path_up [1; 0; 2] []
    = get_path_up [1; 0; 2] [2] ++ [2] :: get_path_up [2] [].
Proof.
  assert (H1 : strict_ancestor [2] [1; 0; 2]).
  { apply sa_step with [0; 2]; [reflexivity|]. apply sa_parent. reflexivity. }
  assert (H2 : strict_ancestor [] [2]) by (apply sa_parent; reflexivity).
  split; [exact H1|]. split; [exact H2|].
  exact (get_path_up_compose [1; 0; 2] [2] [] H1 H2).
Defined.

(** X8: the path is empty in exactly two cases: the lowest node is the
    root, or the second argument is its parent.  An empty result does not
    tell the two apart. *)
Theorem get_path_up_empty (n a : TreeNode) :
  get_path_up n a = [] ↔ up n = None ∨ up n = Some a.
Proof.
  unfold get_path_up. destruct n as [|i p]; simpl.
  - split; [by left|done].
  - case_decide as Hp.
    + subst. split; [by right|done].
    + split; [done|]. intros [?|[= ?]]; [done|]. by destruct Hp.
Qed.

(** ** add_genome_to_node: attachment, repetition, outcomes *)

Lemma set_taxon_attachable (g : Genome) (n : TreeNode) (d : NodeData) :
  taxon g = None ∨ taxon g = Some n →
  set_taxon g (ObjTreeNode n d) = (set_taxon_field g (Some n), Ok ()).
Proof.
  intros Htaxon. unfold set_taxon. rewrite decide_False; [done|].
  intros [Hsome Hne]. destruct Htaxon as [Hnone|Hsame]; congruence.
Qed.

Lemma add_genome_to_node_extant_ok (self : Taxonomy) (n : TreeNode) (d : NodeData)
  (g : Genome) :
  genome_class g = ExtantGenome → taxon g = None ∨ taxon g = Some n →
  add_genome_to_node self (ObjTreeNode n d) (ObjGenome g)
  = (add_leaf self n,
     ObjTreeNode n (add_feature_genome d (RefGenome (genome_oid g))),
     ObjGenome (set_taxon_field g (Some n)), Ok ()).
Proof.
  intros Hcls Htaxon. unfold add_genome_to_node.
  rewrite set_taxon_attachable by done. simpl. by rewrite Hcls.
Qed.

Lemma add_genome_to_node_ancestral_ok (self : Taxonomy) (n : TreeNode) (d : NodeData)
  (g : Genome) :
  genome_class g = AncestralGenome → taxon g = None ∨ taxon g = Some n →
  add_genome_to_node self (ObjTreeNode n d) (ObjGenome g)
  = (add_internal_node self n,
     ObjTreeNode n (add_feature_genome d (RefGenome (genome_oid g))),
     ObjGenome (set_name (set_taxon_field g (Some n)) (node_name d)), Ok ()).
Proof.
  intros Hcls Htaxon. unfold add_genome_to_node.
  rewrite set_taxon_attachable by done. simpl. by rewrite Hcls.
Qed.

(** X9: attaching an attachable genome to a node succeeds, wherever the
    node sits in the tree, and links the two both ways: the node's [genome]
    feature refers to the genome and the genome's taxon to the node.  The
    node is recorded among the leaves for an extant genome and among the
    internal nodes for an ancestral one, the other set staying as it was;
    only an ancestral genome is renamed, after the node. *)
Theorem add_genome_to_node_links (self : Taxonomy) (n : TreeNode) (d : NodeData)
  (g : Genome) :
  attachable g n →
  ∃ self' d' g',
    add_genome_to_node self (ObjTreeNode n d) (ObjGenome g)
    = (self', ObjTreeNode n d', ObjGenome g', Ok ())
    ∧ genome_feature d' = Some (RefGenome (genome_oid g'))
    ∧ taxon g' = Some n
    ∧ genome_oid g' = genome_oid g ∧ genes g' = genes g
    ∧ node_name d' = node_name d
    ∧ (genome_class g = ExtantGenome →
       leaves self' = leaves self ∪ {[n]}
       ∧ internal_nodes self' = internal_nodes self ∧ name g' = name g)
    ∧ (genome_class g = AncestralGenome →
       internal_nodes self' = internal_nodes self ∪ {[n]}
       ∧ leaves self' = leaves self ∧ name g' = node_name d).
Proof.
  intros [[Hcls|Hcls] Htaxon].
  - rewrite add_genome_to_node_extant_ok by done.
    eexists _, _, _. split; [reflexivity|]. simpl.
    split_and!; try done. rewrite Hcls. discriminate.
  - rewrite add_genome_to_node_ancestral_ok by done.
    eexists _, _, _. split; [reflexivity|]. simpl.
    split_and!; try done. rewrite Hcls. discriminate.
Qed.

Lemma add_genome_to_node_links_witness :
  let root := mkNodeData (Some "HUMAN/MOUSE") [] (Some 0) None in
  let frog := ExtantGenome_init 5 "XENTR" in
  attachable frog []
  ∧ ∃ self' d' g',
      add_genome_to_node example_taxonomy (ObjTreeNode [] root) (ObjGenome frog)
      = (self', ObjTreeNode [] d', ObjGenome g', Ok ())
      ∧ genome_feature d' = Some (RefGenome (genome_oid g'))
      ∧ taxon g' = Some []
      ∧ genome_oid g' = genome_oid frog ∧ genes g' = genes frog
      ∧ node_name d' = node_name root
      ∧ (genome_class frog = ExtantGenome →
         leaves self' = leaves example_taxonomy ∪ {[ [] ]}
         ∧ internal_nodes self' = internal_nodes example_taxonomy
         ∧ name g' = name frog)
      ∧ (genome_class frog = AncestralGenome →
         internal_nodes self' = internal_nodes example_taxonomy ∪ {[ [] ]}
         ∧ leaves self' = leaves example_taxonomy
         ∧ name g' = node_name root).
Proof.
  intros root frog.
  assert (Hatt : attachable frog []).
  { split; left; reflexivity. }
  split; [exact Hatt|].
  exact (add_genome_to_node_links example_taxonomy [] root frog Hatt).
Defined.

Lemma union_singleton_twice (X : gset TreeNode) (n : TreeNode) :
  X ∪ {[n]} ∪ {[n]} = X ∪ {[n]}.
Proof. by rewrite <- (assoc_L (∪)), (idemp_L (∪)). Qed.

(** X10: attaching is idempotent.  Repeating a successful call on the
    taxonomy, the node and the genome it left changes none of them and
    succeeds again. *)
Theorem add_genome_to_node_twice (self : Taxonomy) (n : TreeNode) (d : NodeData)
  (g : Genome) :
  attachable g n →
  ∃ self' d' g',
    add_genome_to_node self (ObjTreeNode n d) (ObjGenome g)
    = (self', ObjTreeNode n d', ObjGenome g', Ok ())
    ∧ add_genome_to_node self' (ObjTreeNode n d') (ObjGenome g')
      = (self', ObjTreeNode n d', ObjGenome g', Ok ()).
Proof.
  intros [[Hcls|Hcls] Htaxon].
  - rewrite add_genome_to_node_extant_ok by done.
    eexists _, _, _. split; [reflexivity|].
    rewrite add_genome_to_node_extant_ok by (simpl; auto).
    unfold add_leaf. simpl. by rewrite union_singleton_twice.
  - rewrite add_genome_to_node_ancestral_ok by done.
    eexists _, _, _. split; [reflexivity|].
    rewrite add_genome_to_node_ancestral_ok by (simpl; auto).
    unfold add_internal_node. simpl. by rewrite union_singleton_twice.
Qed.

Lemma add_genome_to_node_twice_witness :
  let root := mkNodeData (Some "HUMAN/MOUSE") [] (Some 0) None in
  let anc := AncestralGenome_init 6 in
  attachable anc []
  ∧ ∃ self' d' g',
      add_genome_to_node example_taxonomy (ObjTreeNode [] root) (ObjGenome anc)
      = (self', ObjTreeNode [] d', ObjGenome g', Ok ())
      ∧ add_genome_to_node self' (ObjTreeNode [] d') (ObjGenome g')
        = (self', ObjTreeNode [] d', ObjGenome g', Ok ()).
Proof.
  intros root anc.
  assert (Hatt : attachable anc []).
  { split; [right|left]; reflexivity. }
  split; [exact Hatt|].
  exact (add_genome_to_node_twice example_taxonomy [] root anc Hatt).
Defined.


(** X12: which calls succeed and how the others fail.  A call succeeds
    exactly when it is given a tree node and an attachable genome; it raises
    an [EvolutionaryConceptError] exactly for a genome already attached to
    another node, a [TypeError] exactly for a genome that is neither extant
    nor ancestral while its taxon would fit, and an [AttributeError] exactly
    when the first argument is no tree node or the second no genome. *)
Theorem add_genome_to_node_outcomes (self : Taxonomy) (node genome : PyObj) :
  let r := outcome_of (add_genome_to_node self node genome) in
  (r = Ok () ↔ ∃ n d g, node = ObjTreeNode n d ∧ genome = ObjGenome g
                        ∧ attachable g n)
  ∧ (r = Raise EvolutionaryConceptError
     ↔ ∃ n d g old, node = ObjTreeNode n d ∧ genome = ObjGenome g
                    ∧ taxon g = Some old ∧ old ≠ n)
  ∧ (r = Raise TypeError
     ↔ ∃ n d g, node = ObjTreeNode n d ∧ genome = ObjGenome g
                ∧ genome_class g = BaseGenome
                ∧ (taxon g = None ∨ taxon g = Some n))
  ∧ (r = Raise AttributeError
     ↔ (∀ n d, node ≠ ObjTreeNode n d) ∨ (∀ g, genome ≠ ObjGenome g)).
Proof.
  unfold outcome_of, add_genome_to_node, attachable.
  destruct node as [| |n d| |];
    try (simpl; split_and!; split; try done;
         [by intros (? & ? & ? & ? & _)|by intros (? & ? & ? & ? & ? & _)
         |by intros (? & ? & ? & ? & _)|by intros _; left]).
  destruct genome as [| | | |g];
    try (simpl; split_and!; split; try done;
         [by intros (? & ? & ? & _ & ? & _)|by intros (? & ? & ? & ? & _ & ? & _)
         |by intros (? & ? & ? & _ & ? & _)|by intros _; right]).
  unfold set_taxon. case_decide as Hconf; simpl.
  - destruct Hconf as [Hsome Hne].
    destruct (taxon g) as [old|] eqn:Hold; [|done].
    assert (old ≠ n) by congruence.
    split_and!; split; try done.
    + intros (n' & d' & g' & [= <- <-] & [= <-] & _ & [?|?]); congruence.
    + intros _. by exists n, d, g, old.
    + intros (n' & d' & g' & [= <- <-] & [= <-] & _ & [?|?]); congruence.
    + intros [Hn|Hg]; [by destruct (Hn n d)|by destruct (Hg g)].
  - assert (Hfit : taxon g = None ∨ taxon g = Some n).
    { destruct (taxon g) as [old|]; [|by left].
      destruct (decide (old = n)) as [->|Hne]; [by right|].
      destruct Hconf. split; congruence. }
    destruct (genome_class g) eqn:Hcls; simpl; split_and!; split; try done.
    + intros (n' & d' & g' & [= <- <-] & [= <-] & [?|?] & _); congruence.
    + intros (n' & d' & g' & old & [= <- <-] & [= <-] & Hold & Hne).
      destruct Hfit; congruence.
    + intros _. by exists n, d, g.
    + intros [Hn|Hg]; [by destruct (Hn n d)|by destruct (Hg g)].
    + intros _. exists n, d, g. by auto.
    + intros (n' & d' & g' & old & [= <- <-] & [= <-] & Hold & Hne).
      destruct Hfit; congruence.
    + intros (n' & d' & g' & [= <- <-] & [= <-] & ? & _); congruence.
    + intros [Hn|Hg]; [by destruct (Hn n d)|by destruct (Hg g)].
    + intros _. exists n, d, g. by auto.
    + intros (n' & d' & g' & old & [= <- <-] & [= <-] & Hold & Hne).
      destruct Hfit; congruence.
    + intros (n' & d' & g' & [= <- <-] & [= <-] & ? & _); congruence.
    + intros [Hn|Hg]; [by destruct (Hn n d)|by destruct (Hg g)].
Qed.

(** X20: [str] of an ancestral genome raises a [TypeError] as long as the
    genome has no name, which is how [AncestralGenome.__init__] leaves it;
    attaching it to a node gives it the node's name, so that [str] then
    returns that name (and still fails when the node itself has none).  An
    extant genome keeps the name it was created with. *)
Theorem genome_str_after_attach (self : Taxonomy) (n : TreeNode) (d : NodeData)
  (g : Genome) :
  attachable g n →
  ∃ g', genome_after (add_genome_to_node self (ObjTreeNode n d) (ObjGenome g))
        = Some g'
    ∧ (genome_class g = AncestralGenome →
       get_name g' = node_name d
       ∧ Genome_str g' = match node_name d with
                         | Some s => Ok s
                         | None => Raise TypeError
                         end)
    ∧ (genome_class g = ExtantGenome → Genome_str g' = Genome_str g)
    ∧ (∀ oid, Genome_str (AncestralGenome_init oid) = Raise TypeError)
    ∧ (∀ oid s, Genome_str (ExtantGenome_init oid s) = Ok s).
Proof.
  intros [[Hcls|Hcls] Htaxon].
  - rewrite add_genome_to_node_extant_ok by done.
    eexists. split; [reflexivity|]. split_and!; try done.
    rewrite Hcls. discriminate.
  - rewrite add_genome_to_node_ancestral_ok by done.
    eexists. split; [reflexivity|]. split_and!; try done.
    rewrite Hcls. discriminate.
Qed.

Lemma genome_str_after_attach_witness :
  let root := mkNodeData (Some "HUMAN/MOUSE") [] (Some 0) None in
  let anc := AncestralGenome_init 6 in
  attachable anc []
  ∧ Genome_str anc = Raise TypeError
  ∧ ∃ g', genome_after (add_genome_to_node example_taxonomy (ObjTreeNode [] root)
                          (ObjGenome anc)) = Some g'
          ∧ Genome_str g' = Ok "HUMAN/MOUSE".
Proof.
  intros root anc.
  assert (Hatt : attachable anc []).
  { split; [right|left]; reflexivity. }
  split; [exact Hatt|]. split; [reflexivity|].
  destruct (genome_str_after_attach example_taxonomy [] root anc Hatt)
    as (g' & Hg' & Hanc & _).
  exists g'. split; [exact Hg'|]. apply Hanc. reflexivity.
Defined.

(** ** Generated names *)

Lemma string_app_nil_r (s : string) : s +:+ "" = s.
Proof.
  induction s as [|a s IH]; [done|].
  change (String a (s +:+ "") = String a s). by rewrite IH.
Qed.

Lemma string_app_assoc (s1 s2 s3 : string) :
  (s1 +:+ s2) +:+ s3 = s1 +:+ s2 +:+ s3.
Proof.
  induction s1 as [|a s1 IH]; [done|].
  change (String a ((s1 +:+ s2) +:+ s3) = String a (s1 +:+ s2 +:+ s3)).
  by rewrite IH.
Qed.

Lemma drop_last_cons (a : Ascii.ascii) (s : string) :
  s ≠ "" → drop_last (String a s) = String a (drop_last s).
Proof. by destruct s. Qed.

Lemma string_app_nonempty (s1 s2 : string) : s2 ≠ "" → s1 +:+ s2 ≠ "".
Proof. destruct s1; [done|]. intros _. discriminate. Qed.

Lemma drop_last_app (s1 s2 : string) :
  s2 ≠ "" → drop_last (s1 +:+ s2) = s1 +:+ drop_last s2.
Proof.
  intros Hne. induction s1 as [|a s1 IH]; [done|].
  change (drop_last (String a (s1 +:+ s2)) = String a (s1 +:+ drop_last s2)).
  rewrite drop_last_cons by (by apply string_app_nonempty). by rewrite IH.
Qed.

Lemma slash_terminated_nonempty (x : string) (l : list string) :
  slash_terminated (x :: l) ≠ "".
Proof.
  change (x +:+ "/" +:+ slash_terminated l ≠ "").
  apply string_app_nonempty.
  discriminate.
Qed.

Lemma drop_last_slash_terminated (x : string) (l : list string) :
  drop_last (slash_terminated (x :: l)) = String.concat "/" (x :: l).
Proof.
  revert x. induction l as [|y l IH]; intros x.
  - change (drop_last (x +:+ "/" +:+ "") = x).
    rewrite string_app_nil_r, drop_last_app by discriminate.
    apply string_app_nil_r.
  - change (drop_last (x +:+ "/" +:+ slash_terminated (y :: l))
            = x +:+ "/" +:+ String.concat "/" (y :: l)).
    rewrite drop_last_app
      by (apply string_app_nonempty, slash_terminated_nonempty).
    rewrite (drop_last_app "/") by apply slash_terminated_nonempty.
    by rewrite IH.
Qed.

Lemma level_name_fold (leafs : list NodeData) (acc : string) :
  foldl (λ acc leaf, acc +:+ py_str (node_name leaf) +:+ "/") acc leafs
  = acc +:+ slash_terminated ((py_str ∘ node_name) <$> leafs).
Proof.
  revert acc. induction leafs as [|leaf leafs IH]; intros acc; simpl.
  - by rewrite string_app_nil_r.
  - rewrite IH. by rewrite !string_app_assoc.
Qed.

Lemma iter_leaves_nonempty (t : Tree) : iter_leaves t ≠ [].
Proof.
  induction t as [d cs IH] using Tree_ind.
  destruct cs as [|c cs]; [done|].
  apply Forall_cons in IH as [Hc _].
  change (iter_leaves c ++ flat_map iter_leaves cs ≠ []).
  intros [? _]%app_eq_nil. done.
Qed.

(** The name [set_taxon_name] gives a node: the names of its leaves joined
    by slashes. *)
Lemma set_taxon_name_joined (t : Tree) :
  node_name (data (set_taxon_name t)) = Some (String.concat "/" (leaf_strings t)).
Proof.
  unfold set_taxon_name, level_name, leaf_strings. simpl. f_equal.
  rewrite level_name_fold.
  destruct (iter_leaves t) as [|leaf leafs] eqn:Hl;
    [by apply iter_leaves_nonempty in Hl|].
  change ("" +:+ ?s) with s.
  by rewrite fmap_cons, drop_last_slash_terminated.
Qed.

Lemma rename_internal_nodes_node (d : NodeData) (c : Tree) (cs : list Tree) :
  rename_internal_nodes (Node d (c :: cs))
  = set_taxon_name (Node d (map rename_internal_nodes (c :: cs))).
Proof. reflexivity. Qed.

Lemma flat_map_iter_leaves_rename (cs : list Tree) :
  flat_map iter_leaves (map rename_internal_nodes cs) = flat_map iter_leaves cs.
Proof.
  induction cs as [|c cs IH]; simpl; [done|].
  by rewrite iter_leaves_rename, IH.
Qed.

(** X13: without [use_internal_name], every inner node of the tree comes
    out named after its leaves, their names joined by slashes in leaf order,
    while every leaf keeps its data; with [use_internal_name] the tree is
    left alone. *)
Theorem generated_names_joined (t : Tree) :
  iter_leaves (_generate_internal_node_name false t) = iter_leaves t
  ∧ (∀ node, node ∈ subtrees (_generate_internal_node_name false t) →
       is_leaf node = false →
       node_name (data node) = Some (String.concat "/" (leaf_strings node)))
  ∧ _generate_internal_node_name true t = t.
Proof.
  unfold _generate_internal_node_name.
  split; [apply iter_leaves_rename|]. split; [|done].
  induction t as [d cs IH] using Tree_ind.
  destruct cs as [|c cs].
  - intros node Hin Hleaf. simpl in Hin.
    apply list_elem_of_singleton in Hin. by subst.
  - rewrite rename_internal_nodes_node. intros node Hin Hleaf.
    unfold set_taxon_name in Hin at 1.
    change (node ∈ set_taxon_name (Node d (map rename_internal_nodes (c :: cs)))
                   :: flat_map subtrees (map rename_internal_nodes (c :: cs)))
      in Hin.
    apply elem_of_cons in Hin as [->|Hin].
    + rewrite set_taxon_name_joined. done.
    + apply list_elem_of_In, in_flat_map in Hin as (c' & Hc' & Hnode).
      apply in_map_iff in Hc' as (c0 & <- & Hc0).
      rewrite Forall_forall in IH.
      apply (IH c0); [by apply list_elem_of_In|by apply list_elem_of_In|done].
Qed.

Lemma set_node_name_twice (d : NodeData) (a b : option string) :
  set_node_name (set_node_name d a) b = set_node_name d b.
Proof. reflexivity. Qed.

Lemma map_rename_idemp (cs : list Tree) :
  Forall (λ t, rename_internal_nodes (rename_internal_nodes t)
               = rename_internal_nodes t) cs →
  map rename_internal_nodes (map rename_internal_nodes cs)
  = map rename_internal_nodes cs.
Proof.
  induction 1 as [|c cs Hc _ IH]; simpl; [done|]. by rewrite Hc, IH.
Qed.

Lemma rename_internal_nodes_idemp (t : Tree) :
  rename_internal_nodes (rename_internal_nodes t) = rename_internal_nodes t.
Proof.
  induction t as [d cs IH] using Tree_ind.
  destruct cs as [|c cs]; [done|].
  apply map_rename_idemp in IH.
  rewrite rename_internal_nodes_node.
  change (map rename_internal_nodes (c :: cs))
    with (rename_internal_nodes c :: map rename_internal_nodes cs) in *.
  unfold set_taxon_name at 1. simpl get_children. simpl data.
  rewrite rename_internal_nodes_node, IH.
  unfold set_taxon_name. simpl. by rewrite set_node_name_twice.
Qed.

Lemma tree_size_rename (t : Tree) :
  tree_size (rename_internal_nodes t) = tree_size t.
Proof.
  induction t as [d cs IH] using Tree_ind.
  destruct cs as [|c cs]; [done|].
  rewrite rename_internal_nodes_node. unfold set_taxon_name.
  simpl get_children.
  change (S (list_sum (map tree_size (map rename_internal_nodes (c :: cs))))
          = S (list_sum (map tree_size (c :: cs)))).
  f_equal. f_equal. induction IH as [|c' cs' Hc' _ IH']; simpl; [done|].
  by rewrite Hc', IH'.
Qed.

(** X14: generating the names is idempotent and keeps the number of nodes:
    running [_generate_internal_node_name] on its own result changes
    nothing. *)
Theorem generate_internal_node_name_idemp (use_internal : bool) (t : Tree) :
  _generate_internal_node_name use_internal
    (_generate_internal_node_name use_internal t)
  = _generate_internal_node_name use_internal t
  ∧ tree_size (_generate_internal_node_name use_internal t) = tree_size t.
Proof.
  unfold _generate_internal_node_name. destruct use_internal; [done|].
  split; [apply rename_internal_nodes_idemp|apply tree_size_rename].
Qed.

Lemma rename_root_name (t : Tree) :
  is_leaf t = false →
  node_name (data (rename_internal_nodes t))
  = Some (String.concat "/" (leaf_strings t)).
Proof.
  destruct t as [d [|c cs]]; [done|]. intros _.
  rewrite rename_internal_nodes_node, set_taxon_name_joined.
  assert (Hleaves : iter_leaves (Node d (map rename_internal_nodes (c :: cs)))
                    = iter_leaves (Node d (c :: cs)))
    by apply (flat_map_iter_leaves_rename (c :: cs)).
  unfold leaf_strings. by rewrite Hleaves.
Qed.

(** X15: generated names can collide.  Two inner nodes whose leaves bear
    the same names in the same order get the same name; in particular a
    node whose only child is an inner node is named like that child. *)
Theorem generated_names_collide (t1 t2 : Tree) (d : NodeData) :
  is_leaf t1 = false → is_leaf t2 = false →
  (leaf_strings t1 = leaf_strings t2 →
   node_name (data (_generate_internal_node_name false t1))
   = node_name (data (_generate_internal_node_name false t2)))
  ∧ node_name (data (_generate_internal_node_name false (Node d [t1])))
    = node_name (data (_generate_internal_node_name false t1)).
Proof.
  intros H1 H2. unfold _generate_internal_node_name. split.
  - intros Heq. by rewrite !rename_root_name, Heq.
  - rewrite !rename_root_name by done. do 2 f_equal.
    unfold leaf_strings. simpl. by rewrite app_nil_r.
Qed.

Lemma generated_names_collide_witness :
  let inner := Node (mkNodeData (Some "x") [] None None)
                 [Node (mkNodeData (Some "HUMAN") [] None None) [];
                  Node (mkNodeData (Some "MOUSE") [] None None) []] in
  let d := mkNodeData (Some "y") [] None None in
  is_leaf inner = false
  ∧ node_name (data (_generate_internal_node_name false (Node d [inner])))
    = node_name (data (_generate_internal_node_name false inner)).
Proof.
  intros inner d. split; [reflexivity|].
  destruct (generated_names_collide inner inner d eq_refl eq_refl) as [_ Hunary].
  exact Hunary.
Defined.

(** ** _get_name_phyloxml *)

Lemma get_name_phyloxml_unknown (tag : option string) (d : NodeData) :
  ¬ recognised_tag tag → _get_name_phyloxml tag d = Ok None.
Proof.
  unfold recognised_tag, _get_name_phyloxml. intros Hnot.
  destruct tag as [tg|]; [|by destruct Hnot; left].
  repeat case_decide; subst; try done; destruct Hnot; by auto.
Qed.

(** X16: [_get_name_phyloxml] never returns the empty string; it raises
    nothing but a [KeyError], or an [IndexError] and then only for a clade
    without taxonomy entry; a tag it has no branch for makes it return
    [None] on every node; and with no tag or the tag [clade_name] a node
    with a non-empty name gets this name, whatever its taxonomy. *)
Theorem get_name_phyloxml_results (tag : option string) (d : NodeData) :
  (∀ nm, _get_name_phyloxml tag d = Ok nm → nm ≠ Some "")
  ∧ (∀ e, _get_name_phyloxml tag d = Raise e →
       e = KeyError ∨ (e = IndexError ∧ phyloxml_taxonomy d = []))
  ∧ (¬ recognised_tag tag → _get_name_phyloxml tag d = Ok None)
  ∧ (tag = None ∨ tag = Some "clade_name" → node_name d ≠ Some "" →
     _get_name_phyloxml tag d = Ok (node_name d)).
Proof.
  split_and!.
  - intros nm. unfold _get_name_phyloxml, taxonomy0.
    destruct tag as [tg|]; repeat case_decide;
      destruct (phyloxml_taxonomy d) as [|t ts]; simpl;
      repeat case_decide; intros [= <-]; done.
  - intros e. unfold _get_name_phyloxml, taxonomy0.
    destruct tag as [tg|]; repeat case_decide;
      destruct (phyloxml_taxonomy d) as [|t ts]; simpl;
      repeat case_decide; intros [= <-]; by auto.
  - apply get_name_phyloxml_unknown.
  - intros [->| ->] Hname; unfold _get_name_phyloxml.
    + by rewrite decide_True.
    + rewrite decide_True by done. by rewrite decide_True.
Qed.

(** ** Depths, and what a constructed taxonomy looks like *)

Lemma lookup_map {A B : Type} (f : A → B) (l : list A) (i : nat) :
  map f l !! i = f <$> l !! i.
Proof.
  revert i. induction l as [|x l IH]; intros [|i]; simpl; done.
Qed.

Lemma subtree_at_add_depth (t : Tree) (k : nat) (path : list nat) :
  subtree_at (_add_depth t k) path
  = (λ s, _add_depth s (k + length path)) <$> subtree_at t path.
Proof.
  revert t k. induction path as [|i path IH]; intros [d cs] k.
  - simpl. by rewrite Nat.add_0_r.
  - change (subtree_at (_add_depth (Node d cs) k) (i :: path))
      with (match map (λ n, _add_depth n (S k)) cs !! i with
            | Some c => subtree_at c path
            | None => None
            end).
    rewrite lookup_map. simpl. destruct (cs !! i) as [c|]; simpl; [|done].
    rewrite IH. by replace (k + S (length path)) with (S k + length path) by lia.
Qed.

Lemma depth_feature_add_depth (t : Tree) (k : nat) :
  depth_feature (data (_add_depth t k)) = Some k.
Proof. by destruct t. Qed.

Lemma Taxonomy_init_tree (t : Tree) (fmt : string) (use_internal : bool)
  (tag : option string) (tax : Taxonomy) :
  Taxonomy_init t fmt use_internal tag = Ok tax →
  ∃ built, _build_tree t fmt use_internal tag = Ok (Some built)
    ∧ _check_consistency_names fmt tag
        (_generate_internal_node_name use_internal built) = Ok ()
    ∧ tax = mkTaxonomy
              (_add_depth (_generate_internal_node_name use_internal built) 0)
              fmt use_internal tag ∅ ∅.
Proof.
  unfold Taxonomy_init.
  destruct (_build_tree t fmt use_internal tag) as [[built|]|e]; simpl;
    try discriminate.
  destruct (_check_consistency_names fmt tag
              (_generate_internal_node_name use_internal built))
    as [[]|e] eqn:Hcheck; simpl; [|discriminate].
  intros [= <-]. by exists built.
Qed.

(** X18: in every taxonomy that construction returns, the [depth] feature
    of a node is the number of edges between it and the root: the node that
    an address refers to carries the length of that address. *)
Theorem Taxonomy_init_depths (t : Tree) (fmt : string) (use_internal : bool)
  (tag : option string) (tax : Taxonomy) :
  Taxonomy_init t fmt use_internal tag = Ok tax →
  ∀ n node, node_at (tree tax) n = Some node →
            depth_feature (data node) = Some (depth n).
Proof.
  intros (built & _ & _ & ->)%Taxonomy_init_tree n node. simpl.
  unfold node_at. rewrite subtree_at_add_depth.
  destruct (subtree_at _ (reverse n)) as [s|]; simpl; [|discriminate].
  intros [= <-]. rewrite depth_feature_add_depth.
  unfold depth. by rewrite length_reverse.
Qed.

Lemma leaf_names_add_depth (t : Tree) (k : nat) :
  leaf_names (_add_depth t k) = leaf_names t.
Proof.
  revert k. induction t as [d cs IH] using Tree_ind. intros k.
  destruct cs as [|c cs]; [done|].
  rewrite (leaf_names_node (_add_depth _ _)), (leaf_names_node (Node d (c :: cs))).
  change (flat_map leaf_names (map (λ n, _add_depth n (S k)) (c :: cs))
          = flat_map leaf_names (c :: cs)).
  induction IH as [|c' cs' Hc' _ IH']; simpl; [done|].
  by rewrite Hc', IH'.
Qed.

Lemma tree_size_add_depth (t : Tree) (k : nat) :
  tree_size (_add_depth t k) = tree_size t.
Proof.
  revert k. induction t as [d cs IH] using Tree_ind. intros k.
  change (S (list_sum (map tree_size (map (λ n, _add_depth n (S k)) cs)))
          = S (list_sum (map tree_size cs))).
  do 2 f_equal. induction IH as [|c' cs' Hc' _ IH']; simpl; [done|].
  by rewrite Hc', IH'.
Qed.

Lemma names_add_depth (t : Tree) (k : nat) :
  (node_name ∘ data) <$> subtrees (_add_depth t k)
  = (node_name ∘ data) <$> subtrees t.
Proof.
  revert k. induction t as [d cs IH] using Tree_ind. intros k.
  change ((node_name ∘ data) <$>
            (_add_depth (Node d cs) k
             :: flat_map subtrees (map (λ n, _add_depth n (S k)) cs))
          = (node_name ∘ data) <$> (Node d cs :: flat_map subtrees cs)).
  rewrite !fmap_cons. f_equal.
  induction IH as [|c' cs' Hc' _ IH']; simpl; [done|].
  by rewrite !fmap_app, Hc', IH'.
Qed.

(** X19: a taxonomy built from a newick tree has the leaf names of the
    input, pairwise distinct, as many nodes as the input, and no genome
    attached yet; with [use_internal_name] every node keeps its name. *)
Theorem Taxonomy_init_newick_result (t : Tree) (fmt : string)
  (use_internal : bool) (tag : option string) (tax : Taxonomy) :
  is_newick fmt →
  Taxonomy_init t fmt use_internal tag = Ok tax →
  leaf_names (tree tax) = leaf_names t
  ∧ NoDup (leaf_names (tree tax))
  ∧ tree_size (tree tax) = tree_size t
  ∧ leaves tax = ∅ ∧ internal_nodes tax = ∅
  ∧ (use_internal = true →
     (node_name ∘ data) <$> subtrees (tree tax)
     = (node_name ∘ data) <$> subtrees t).
Proof.
  intros Hfmt (built & Hbuilt & Hcheck & ->)%Taxonomy_init_tree. simpl.
  rewrite build_tree_newick in Hbuilt by done. injection Hbuilt as <-.
  apply check_consistency_names_newick in Hcheck;
    [|by apply is_newick_not_phyloxml].
  rewrite generate_internal_leaf_names in Hcheck.
  rewrite leaf_names_add_depth, generate_internal_leaf_names.
  split_and!; try done.
  - rewrite tree_size_add_depth.
    unfold _generate_internal_node_name. destruct use_internal; [done|].
    apply tree_size_rename.
  - intros ->. by rewrite names_add_depth.
Qed.

Lemma Taxonomy_init_depths_witness :
  ∃ tax, Taxonomy_init twice_anc "newick_string" true None = Ok tax
    ∧ ∀ n node, node_at (tree tax) n = Some node →
                depth_feature (data node) = Some (depth n).
Proof.
  eexists. split; [reflexivity|].
  apply (Taxonomy_init_depths twice_anc "newick_string" true None).
  reflexivity.
Defined.

Lemma Taxonomy_init_newick_result_witness :
  ∃ tax, is_newick "newick"
    ∧ Taxonomy_init twice_anc "newick" true None = Ok tax
    ∧ leaf_names (tree tax) = leaf_names twice_anc
    ∧ NoDup (leaf_names (tree tax))
    ∧ tree_size (tree tax) = tree_size twice_anc
    ∧ leaves tax = ∅ ∧ internal_nodes tax = ∅
    ∧ (true = true →
       (node_name ∘ data) <$> subtrees (tree tax)
       = (node_name ∘ data) <$> subtrees twice_anc).
Proof.
  assert (Hfmt : is_newick "newick") by (right; reflexivity).
  eexists. split; [exact Hfmt|]. split; [reflexivity|].
  apply (Taxonomy_init_newick_result twice_anc "newick" true None _ Hfmt).
  reflexivity.
Defined.

(** ** A phyloxml tree read with a tag that has no branch *)

Lemma build_names_unknown (tag : option string) (use_internal : bool)
  (nodes : list Tree) :
  ¬ recognised_tag tag → build_names tag use_internal nodes = Ok ().
Proof.
  intros Htag. induction nodes as [|node nodes IH]; simpl; [done|].
  destruct (renamed_in_build use_internal node); [|done].
  by rewrite get_name_phyloxml_unknown.
Qed.

Lemma collect_names_unknown (tag : option string) (nodes : list Tree)
  (leafs ints : list (option string)) :
  ¬ recognised_tag tag →
  collect_names "phyloxml" tag nodes leafs ints = Ok (leafs, ints).
Proof.
  intros Htag. revert leafs ints.
  induction nodes as [|node nodes IH]; intros leafs ints; simpl; [done|].
  destruct (is_leaf node); rewrite get_name_phyloxml_unknown by done;
    simpl; apply IH.
Qed.

Lemma leaf_names_assign_unknown (tag : option string) (use_internal : bool)
  (t : Tree) :
  ¬ recognised_tag tag →
  Forall (λ nm, nm = None) (leaf_names (assign_names tag use_internal t)).
Proof.
  intros Htag. induction t as [d cs IH] using Tree_ind.
  destruct cs as [|c cs].
  - unfold leaf_names. simpl. rewrite get_name_phyloxml_unknown by done.
    by repeat constructor.
  - rewrite leaf_names_node.
    change (Forall (λ nm, nm = None)
              (flat_map leaf_names (map (assign_names tag use_internal) (c :: cs)))).
    induction IH as [|c' cs' Hc' _ IH']; simpl; [done|].
    apply Forall_app. by split.
Qed.

(** X17: read as phyloxml with a species-name tag that
    [_get_name_phyloxml] has no branch for, every tree is accepted: no name
    is ever collected, so no duplicate can be found, and the leaves of the
    taxonomy are all named [None]. *)
Theorem Taxonomy_init_unknown_tag (t : Tree) (use_internal : bool)
  (tag : option string) :
  ¬ recognised_tag tag →
  ∃ tax, Taxonomy_init t "phyloxml" use_internal tag = Ok tax
    ∧ Forall (λ nm, nm = None) (leaf_names (tree tax)).
Proof.
  intros Htag. unfold Taxonomy_init, _build_tree.
  rewrite !decide_False by discriminate. rewrite decide_True by done.
  rewrite build_names_unknown by done. simpl.
  unfold _check_consistency_names. rewrite collect_names_unknown by done.
  simpl. eexists. split; [reflexivity|]. simpl.
  rewrite leaf_names_add_depth, generate_internal_leaf_names.
  by apply leaf_names_assign_unknown.
Qed.

Lemma Taxonomy_init_unknown_tag_witness :
  let dup := Node (mkNodeData (Some "root") [] None None)
               [Node (mkNodeData (Some "HUMAN") [] None None) [];
                Node (mkNodeData (Some "HUMAN") [] None None) []] in
  ¬ recognised_tag (Some "species")
  ∧ ∃ tax, Taxonomy_init dup "phyloxml" false (Some "species") = Ok tax
      ∧ Forall (λ nm, nm = None) (leaf_names (tree tax)).
Proof.
  intros dup.
  assert (Htag : ¬ recognised_tag (Some "species")).
  { intros [H|[H|[H|H]]]; discriminate H. }
  split; [exact Htag|].
  exact (Taxonomy_init_unknown_tag dup false (Some "species") Htag).
Defined.

(** ** The phyloxml naming pass of _build_tree *)

(** The level-order walk visits every node of the queued trees once. *)
Lemma levelorder_loop_subtrees (fuel : nat) (q : list Tree) :
  forest_size q ≤ fuel → levelorder_loop fuel q ≡ₚ flat_map subtrees q.
Proof.
  revert q. induction fuel as [|fuel IH]; intros q Hsize.
  - destruct q as [|t q]; [done|].
    unfold forest_size in Hsize. simpl in Hsize. destruct t. simpl in Hsize. lia.
  - destruct q as [|t q]; [done|].
    change (levelorder_loop (S fuel) (t :: q))
      with (t :: levelorder_loop fuel (q ++ get_children t)).
    assert (Hrest : forest_size (q ++ get_children t) ≤ fuel).
    { rewrite forest_size_app. unfold forest_size in Hsize |- *.
      simpl in Hsize. rewrite tree_size_children in Hsize.
      unfold forest_size in Hsize. lia. }
    rewrite (IH _ Hrest), flat_map_app.
    destruct t as [d cs].
    change (Node d cs :: flat_map subtrees q ++ flat_map subtrees cs
            ≡ₚ (Node d cs :: flat_map subtrees cs) ++ flat_map subtrees q).
    simpl. constructor. apply Permutation_app_comm.
Qed.

Lemma traverse_subtrees (t : Tree) : traverse t ≡ₚ subtrees t.
Proof.
  unfold traverse. rewrite levelorder_loop_subtrees.
  - simpl. by rewrite app_nil_r.
  - unfold forest_size. simpl. lia.
Qed.

Lemma build_names_Ok (tag : option string) (use_internal : bool)
  (nodes : list Tree) :
  build_names tag use_internal nodes = Ok ()
  ↔ Forall (resolvable tag use_internal) nodes.
Proof.
  unfold resolvable. induction nodes as [|node nodes IH]; simpl.
  - split; [constructor|done].
  - rewrite Forall_cons, <- IH.
    destruct (renamed_in_build use_internal node).
    + destruct (_get_name_phyloxml tag (data node)) as [nm|e]; simpl.
      * split; [|by intros [_ ?]]. intros ?. split; [|done]. by eexists.
      * split; [done|]. intros [Hres _]. by destruct Hres as [nm ?].
    + split; [|by intros [_ ?]]. intros ?. by split.
Qed.

Lemma get_name_phyloxml_nonempty (tag : option string) (d : NodeData)
  (nm : option string) :
  _get_name_phyloxml tag d = Ok nm → nm ≠ Some "".
Proof.
  unfold _get_name_phyloxml, taxonomy0.
  destruct tag as [tg|]; repeat case_decide;
    destruct (phyloxml_taxonomy d) as [|t ts]; simpl;
    repeat case_decide; intros [= <-]; done.
Qed.

Lemma leaf_names_assign_nonempty (tag : option string) (use_internal : bool)
  (t : Tree) :
  Forall (resolvable tag use_internal) (subtrees t) →
  Forall (λ nm, nm ≠ Some "") (leaf_names (assign_names tag use_internal t)).
Proof.
  induction t as [d cs IH] using Tree_ind. intros Hall.
  change (subtrees (Node d cs)) with (Node d cs :: flat_map subtrees cs) in Hall.
  apply Forall_cons in Hall as [Hroot Hrest].
  destruct cs as [|c cs].
  - destruct Hroot as [nm Hnm]; [done|]. simpl in Hnm.
    change (assign_names tag use_internal (Node d []))
      with (Node (match _get_name_phyloxml tag d with
                  | Ok nm => set_node_name d nm
                  | Raise _ => d
                  end) []).
    rewrite Hnm. unfold leaf_names. simpl.
    constructor; [|constructor]. by eapply get_name_phyloxml_nonempty.
  - rewrite leaf_names_node.
    change (Forall (λ nm, nm ≠ Some "")
              (flat_map leaf_names (map (assign_names tag use_internal) (c :: cs)))).
    clear Hroot. revert IH Hrest. generalize (c :: cs) as l. intros l IH.
    induction IH as [|c' cs' Hc' _ IH']; intros Hrest; simpl; [done|].
    simpl in Hrest. apply Forall_app in Hrest as [Hc'sub Hcs'sub].
    apply Forall_app. split; [by apply Hc'|by apply IH'].
Qed.

Lemma build_tree_phyloxml_Ok (t : Tree) (use_internal : bool) (tag : option string) :
  (_build_tree t "phyloxml" use_internal tag
   = Ok (Some (assign_names tag use_internal t))
   ∧ Forall (resolvable tag use_internal) (subtrees t))
  ∨ ((∃ e, _build_tree t "phyloxml" use_internal tag = Raise e)
     ∧ ¬ Forall (resolvable tag use_internal) (subtrees t)).
Proof.
  unfold _build_tree.
  rewrite !decide_False by discriminate. rewrite decide_True by done.
  assert (Hiff : build_names tag use_internal (traverse t) = Ok ()
                 ↔ Forall (resolvable tag use_internal) (subtrees t)).
  { rewrite build_names_Ok. by rewrite traverse_subtrees. }
  destruct (build_names tag use_internal (traverse t)) as [[]|e]; simpl.
  - left. split; [done|]. by apply Hiff.
  - right. split; [by eexists|]. intros Hall. apply Hiff in Hall. discriminate.
Qed.

(** X21: the phyloxml branch of [_build_tree] succeeds exactly when the
    name of every leaf, and with [use_internal_name] of every node, can be
    resolved; the tree it then returns has no leaf named with the empty
    string, and neither has a taxonomy constructed from it. *)
Theorem build_tree_phyloxml (t : Tree) (use_internal : bool) (tag : option string) :
  ((∃ built, _build_tree t "phyloxml" use_internal tag = Ok (Some built))
   ↔ Forall (resolvable tag use_internal) (subtrees t))
  ∧ (∀ built, _build_tree t "phyloxml" use_internal tag = Ok (Some built) →
       Forall (λ nm, nm ≠ Some "") (leaf_names built))
  ∧ (∀ tax, Taxonomy_init t "phyloxml" use_internal tag = Ok tax →
       Forall (λ nm, nm ≠ Some "") (leaf_names (tree tax))).
Proof.
  destruct (build_tree_phyloxml_Ok t use_internal tag)
    as [[Hbuilt Hall]|[[e He] Hnot]].
  - split_and!.
    + split; [done|]. intros _. by eexists.
    + rewrite Hbuilt. intros built [= <-].
      by apply leaf_names_assign_nonempty.
    + intros tax (built & Hb & _ & ->)%Taxonomy_init_tree. simpl.
      rewrite Hbuilt in Hb. injection Hb as <-.
      rewrite leaf_names_add_depth, generate_internal_leaf_names.
      by apply leaf_names_assign_nonempty.
  - split_and!.
    + split; [|done]. intros [built Hb]. rewrite He in Hb. discriminate.
    + intros built Hb. rewrite He in Hb. discriminate.
    + intros tax (built & Hb & _)%Taxonomy_init_tree.
      rewrite He in Hb. discriminate.
Qed.

(** ** A genome stays on its node *)



(** ** Paths and the tree *)

Lemma subtree_at_app (t : Tree) (p1 p2 : list nat) :
  subtree_at t (p1 ++ p2) = subtree_at t p1 ≫= λ s, subtree_at s p2.
Proof.
  revert t. induction p1 as [|i p1 IH]; intros t; simpl; [done|].
  destruct (get_children t !! i) as [c|]; [apply IH|done].
Qed.

Lemma node_at_cons (t : Tree) (i : nat) (p : TreeNode) (node : Tree) :
  node_at t (i :: p) = Some node →
  ∃ s, node_at t p = Some s ∧ get_children s !! i = Some node.
Proof.
  unfold node_at. rewrite reverse_cons, subtree_at_app.
  destruct (subtree_at t (reverse p)) as [s|]; simpl; [|discriminate].
  destruct (get_children s !! i) as [c|] eqn:Hc; [|discriminate].
  intros [= <-]. by exists s.
Qed.

Lemma iter_ancestors_inner (t : Tree) (n : TreeNode) (node : Tree) :
  node_at t n = Some node →
  ∀ x, x ∈ iter_ancestors n → ∃ s, node_at t x = Some s ∧ is_leaf s = false.
Proof.
  revert node. induction n as [|i p IH]; intros node Hnode x; simpl.
  - by intros ?%elem_of_nil.
  - apply node_at_cons in Hnode as (s & Hs & Hchild).
    intros [->|Hx]%elem_of_cons.
    + exists s. split; [done|]. unfold is_leaf.
      destruct (get_children s); [done|done].
    + by eapply IH.
Qed.

(** X23: a path never leaves the tree.  When the lowest node is a node of
    the tree, every entry of [get_path_up] is one too, and each is an inner
    node: it has children. *)
Theorem get_path_up_inner_nodes (t : Tree) (n a : TreeNode) (node : Tree) :
  node_at t n = Some node →
  ∀ x, x ∈ get_path_up n a → ∃ s, node_at t x = Some s ∧ is_leaf s = false.
Proof.
  intros Hnode x Hx. apply (iter_ancestors_inner t n node Hnode).
  unfold get_path_up in Hx.
  destruct (path_up_loop_prefix (iter_ancestors n) a) as [rest Hrest].
  rewrite Hrest. apply elem_of_app. by left.
Qed.

Lemma get_path_up_inner_nodes_witness :
  ∃ node, node_at twice_anc [1; 0] = Some node
    ∧ ∀ x, x ∈ get_path_up [1; 0] [] →
           ∃ s, node_at twice_anc x = Some s ∧ is_leaf s = false.
Proof.
  eexists. split; [reflexivity|].
  eapply (get_path_up_inner_nodes twice_anc [1; 0] []). reflexivity.
Defined.
